(** * primavista: the MIDI note lifecycle and its delivery buffer

    A shallow embedding of [src/MIDI.js]: the [Note] class, the [_noteon]
    and [_noteoff] listeners of the [MIDI] event target, the periodic flush
    callback installed by [initialize], and the [playing] getter.

    Conventions of the embedding.
    - JavaScript numbers that hold integers (keys, velocities, millisecond
      clock readings and their differences) are values of [Z]; all of them
      stay far below 2^53 in a run of the program, where the arithmetic of
      doubles on integers is exact.  The counter [_no] is the one number
      that is only ever incremented, and its increment is written with the
      saturation of doubles at 2^53.
    - [Date.now()] is an input: a listener that reads the clock takes the
      reading as its argument [now].
    - Objects that are shared and mutated in place live in a store and are
      passed around by reference: [Note] objects (held by [notes], [log]
      and the buffer at once) and the arrays bound to [this._buffer]
      (captured by the flush callback while the listeners push to the
      field).
    - The flush callback contains an [await]; it is read as the async
      function that this requires, split at its single suspension point
      into [flush_start] and [flush_resume].  The event loop runs one
      reaction at a time ([react]): a signal, a timer tick, or the settling
      of a pending [fetch]; several sends can be in flight.
    - Listeners registered by other parties on the public events are not
      part of the file and are taken not to touch the [MIDI] object; the
      notifications they receive are recorded, in order, in the field
      [emitted].
    - The decoding of raw MIDI messages in [initialize] is not modelled:
      the signals are the ['_noteon'] and ['_noteoff'] events it
      dispatches. *)

From Stdlib Require Import ZArith String Ascii List Lia.
From stdpp Require Import base option list gmap strings pretty relations.

Open Scope Z_scope.

(** ** Values and errors *)

(** References into the two stores. *)
Abbreviation loc := nat (only parsing).
Abbreviation aloc := nat (only parsing).

(** The JavaScript values that the modelled code passes around. *)
Inductive JSVal : Type :=
| VUndefined
| VNull
| VBool (b : bool)
| VNum (n : Z)
| VStr (s : string)
| VObj (r : loc).

(** What a listener can throw.  [TypeError p] is the error of reading
    property [p] of [undefined].  [FetchError] is the rejection of a
    [fetch] promise.  [Dangling] is a reference that points outside its
    store; JavaScript has no such thing, and [wf] below shows that no
    state of the program has one. *)
Inductive JSError : Type :=
| TypeError (p : string)
| FetchError
| Dangling.

Inductive Completion (A : Type) : Type :=
| Normal (a : A)
| Throw (e : JSError).
Arguments Normal {A} a.
Arguments Throw {A} e.

(** ** class Note *)

Module Note.

Record t : Type := mk {
  _id : string;
  key : Z;
  velocity : Z;
  timestamp : Z;
  _duration : option Z   (* [None] is [null] *)
}.

(** [_no++] on a double that holds a natural number. *)
Definition incr (n : Z) : Z := if n <? 2 ^ 53 then n + 1 else n.

(** [constructor(key, velocity, timestamp)], given the module variables
    [_TIMESTAMP] (as the template literal renders it) and [_no]; the second
    component is the new value of [_no]. *)
Definition constructor (_TIMESTAMP : string) (_no : Z) (key velocity timestamp : Z)
  : t * Z :=
  ({| _id := _TIMESTAMP +:+ "." +:+ pretty _no;
      key := key;
      velocity := velocity;
      timestamp := timestamp;
      _duration := None |},
   incr _no).

(** [get duration()] *)
Definition duration (now : Z) (this : t) : Z :=
  match _duration this with
  | None => now - timestamp this
  | Some d => d
  end.

(** [get playing()] *)
Definition playing (this : t) : bool :=
  match _duration this with
  | None => true
  | Some _ => false
  end.

Definition of_option (o : option Z) : JSVal :=
  match o with
  | None => VNull
  | Some d => VNum d
  end.

(** [this.p] for a data property or an accessor: the own properties set
    by the constructor, then the getters of [Note.prototype].  The methods
    ([toJSON], [constructor] and those of [Object.prototype]) are not data
    and are not listed; a name that is on neither object, such as [id],
    reads as [undefined]. *)
Definition get (now : Z) (this : t) (p : string) : JSVal :=
  if String.eqb p "_id" then VStr (_id this)
  else if String.eqb p "key" then VNum (key this)
  else if String.eqb p "velocity" then VNum (velocity this)
  else if String.eqb p "timestamp" then VNum (timestamp this)
  else if String.eqb p "_duration" then of_option (_duration this)
  else if String.eqb p "duration" then VNum (duration now this)
  else if String.eqb p "playing" then VBool (playing this)
  else VUndefined.

(** [toJSON()]: the object literal, as its properties in order. *)
Definition toJSON (now : Z) (this : t) : list (string * JSVal) :=
  [ ("id", get now this "id");
    ("key", get now this "key");
    ("velocity", get now this "velocity");
    ("timestamp", get now this "timestamp");
    ("duration", get now this "duration") ].

(** [note._duration = d] *)
Definition set__duration (d : Z) (this : t) : t :=
  {| _id := _id this;
     key := key this;
     velocity := velocity this;
     timestamp := timestamp this;
     _duration := Some d |}.

End Note.

(** ** class MIDI *)

Module MIDI.

(** A notification dispatched to observers: [new CustomEvent(type, {detail})]. *)
Record CustomEvent : Type := mkEvent {
  type : string;
  detail : JSVal
}.

(** The detail of the internal [_noteon] and [_noteoff] events. *)
Record Detail : Type := mkDetail {
  d_key : Z;
  d_velocity : Z;
  d_timestamp : Z
}.

Inductive Signal : Type :=
| KeyDown (d : Detail)
| KeyUp (d : Detail).

Definition signal_key (sig : Signal) : Z :=
  match sig with
  | KeyDown d => d_key d
  | KeyUp d => d_key d
  end.

(** The state of the program: the module variables, the two stores, the
    fields of the [MIDI] object and the notifications sent so far. *)
Record State : Type := mkState {
  _TIMESTAMP : string;           (* const _TIMESTAMP, as a template renders it *)
  _no : Z;                       (* let _no *)
  note_heap : list Note.t;       (* Note objects *)
  array_heap : list (list loc);  (* arrays that this._buffer was bound to *)
  notes : gmap Z loc;            (* this.notes *)
  log : list loc;                (* this.log *)
  _buffer : aloc;                (* this._buffer *)
  emitted : list CustomEvent
}.

(** [new MIDI()] in a freshly loaded module. *)
Definition constructor (ts : string) : State :=
  {| _TIMESTAMP := ts;
     _no := 0;
     note_heap := [];
     array_heap := [[]];
     notes := ∅;
     log := [];
     _buffer := 0%nat;
     emitted := [] |}.

(** *** The monad of listeners: state and exceptions *)

Definition M (A : Type) : Type := State → Completion A * State.

Definition ret {A} (a : A) : M A := λ s, (Normal a, s).

Definition throw {A} (e : JSError) : M A := λ s, (Throw e, s).

Definition bind {A B} (m : M A) (k : A → M B) : M B :=
  λ s, match m s with
       | (Normal a, s') => k a s'
       | (Throw e, s') => (Throw e, s')
       end.

Notation "'let*' x ':=' m 'in' k" := (bind m (λ x, k))
  (at level 10, x name, m at level 100, k at level 200).
Notation "m '>>' k" := (bind m (λ _, k))
  (at level 90, right associativity).

(** *** Primitive operations on the state *)

Definition new_Note (key velocity timestamp : Z) : M loc :=
  λ s, let '(n, no') :=
         Note.constructor (_TIMESTAMP s) (_no s) key velocity timestamp in
       (Normal (length (note_heap s)),
        {| _TIMESTAMP := _TIMESTAMP s; _no := no';
           note_heap := note_heap s ++ [n]; array_heap := array_heap s;
           notes := notes s; log := log s; _buffer := _buffer s;
           emitted := emitted s |}).

Definition Note_read (r : loc) : M Note.t :=
  λ s, match note_heap s !! r with
       | Some n => (Normal n, s)
       | None => (Throw Dangling, s)
       end.

Definition Note_write (r : loc) (n : Note.t) : M unit :=
  λ s, (Normal tt,
        {| _TIMESTAMP := _TIMESTAMP s; _no := _no s;
           note_heap := <[r := n]> (note_heap s); array_heap := array_heap s;
           notes := notes s; log := log s; _buffer := _buffer s;
           emitted := emitted s |}).

Definition Array_read (a : aloc) : M (list loc) :=
  λ s, match array_heap s !! a with
       | Some l => (Normal l, s)
       | None => (Throw Dangling, s)
       end.

Definition Array_write (a : aloc) (l : list loc) : M unit :=
  λ s, (Normal tt,
        {| _TIMESTAMP := _TIMESTAMP s; _no := _no s;
           note_heap := note_heap s; array_heap := <[a := l]> (array_heap s);
           notes := notes s; log := log s; _buffer := _buffer s;
           emitted := emitted s |}).

(** An array literal or the result of [concat]: a new array. *)
Definition Array_alloc (l : list loc) : M aloc :=
  λ s, (Normal (length (array_heap s)),
        {| _TIMESTAMP := _TIMESTAMP s; _no := _no s;
           note_heap := note_heap s; array_heap := array_heap s ++ [l];
           notes := notes s; log := log s; _buffer := _buffer s;
           emitted := emitted s |}).

(** [a.push(r)] *)
Definition Array_push (a : aloc) (r : loc) : M unit :=
  let* l := Array_read a in Array_write a (l ++ [r]).

Definition get__buffer : M aloc := λ s, (Normal (_buffer s), s).

Definition set__buffer (a : aloc) : M unit :=
  λ s, (Normal tt,
        {| _TIMESTAMP := _TIMESTAMP s; _no := _no s;
           note_heap := note_heap s; array_heap := array_heap s;
           notes := notes s; log := log s; _buffer := a;
           emitted := emitted s |}).

(** [this.log.push(r)] *)
Definition log_push (r : loc) : M unit :=
  λ s, (Normal tt,
        {| _TIMESTAMP := _TIMESTAMP s; _no := _no s;
           note_heap := note_heap s; array_heap := array_heap s;
           notes := notes s; log := log s ++ [r]; _buffer := _buffer s;
           emitted := emitted s |}).

(** [this.notes.get(k)]; [None] is [undefined]. *)
Definition notes_get (k : Z) : M (option loc) :=
  λ s, (Normal (notes s !! k), s).

(** [this.notes.set(k, r)] *)
Definition notes_set (k : Z) (r : loc) : M unit :=
  λ s, (Normal tt,
        {| _TIMESTAMP := _TIMESTAMP s; _no := _no s;
           note_heap := note_heap s; array_heap := array_heap s;
           notes := <[k := r]> (notes s); log := log s; _buffer := _buffer s;
           emitted := emitted s |}).

(** [this.notes.delete(k)] *)
Definition notes_delete (k : Z) : M unit :=
  λ s, (Normal tt,
        {| _TIMESTAMP := _TIMESTAMP s; _no := _no s;
           note_heap := note_heap s; array_heap := array_heap s;
           notes := delete k (notes s); log := log s; _buffer := _buffer s;
           emitted := emitted s |}).

(** [this.dispatchEvent(e)] for a public event [e]. *)
Definition dispatchEvent (e : CustomEvent) : M unit :=
  λ s, (Normal tt,
        {| _TIMESTAMP := _TIMESTAMP s; _no := _no s;
           note_heap := note_heap s; array_heap := array_heap s;
           notes := notes s; log := log s; _buffer := _buffer s;
           emitted := emitted s ++ [e] |}).

(** Reading property [p] of the result of [notes.get]: a [TypeError] on
    [undefined]. *)
Definition ToObject (p : string) (v : option loc) : M loc :=
  match v with
  | Some r => ret r
  | None => throw (TypeError p)
  end.

(** *** The listeners *)

(** The listener of ['_noteon']. *)
Definition _noteon (d : Detail) : M unit :=
  let* note := new_Note (d_key d) (d_velocity d) (d_timestamp d) in
  dispatchEvent (mkEvent "beforenoteon" (VObj note)) >>
  log_push note >>
  notes_set (d_key d) note >>
  dispatchEvent (mkEvent "noteon" (VObj note)).

(** The listener of ['_noteoff'].  [new CustomEvent('beforenoteoff')] has
    no init dictionary, so its [detail] is [null]; the object passed as
    second argument of [dispatchEvent] is ignored. *)
Definition _noteoff (now : Z) (d : Detail) : M unit :=
  let* v := notes_get (d_key d) in
  let* note := ToObject "duration" v in
  let* n := Note_read note in
  Note_write note (Note.set__duration (Note.duration now n) n) >>
  (let* buf := get__buffer in Array_push buf note) >>
  dispatchEvent (mkEvent "beforenoteoff" VNull) >>
  notes_delete (d_key d) >>
  dispatchEvent (mkEvent "noteoff" (VObj note)).

(** The listener that a signal reaches, with the clock reading at the time
    it runs. *)
Definition listener (now : Z) (sig : Signal) : M unit :=
  match sig with
  | KeyDown d => _noteon d
  | KeyUp d => _noteoff now d
  end.

(** Dispatching the signal: an exception of the listener is reported by
    the event target, not propagated, and the state keeps what the listener
    did before it threw. *)
Definition dispatch (now : Z) (sig : Signal) (s : State) : State :=
  snd (listener now sig s).

(** A run of signals, each with the clock reading at its handling. *)
Fixpoint run (sigs : list (Z * Signal)) (s : State) : State :=
  match sigs with
  | [] => s
  | (now, sig) :: rest => run rest (dispatch now sig s)
  end.

(** [get playing()] of [MIDI]: [this.notes.size > 0]. *)
Definition playing (s : State) : bool :=
  bool_decide (0 < size (notes s))%nat.

(** *** The flush callback of [setInterval] *)

(** The request handed to [fetch]. *)
Record Request : Type := mkRequest {
  url : string;
  method : string;
  headers : list (string * string);
  body : string
}.

(** What the promise of [fetch] settles to: a response with its status, or
    a rejection (network failure). *)
Inductive Settled : Type :=
| Fulfilled (status : Z)
| Rejected.

(** [response.ok] *)
Definition ok (status : Z) : bool := (200 <=? status) && (status <=? 299).

(** [String(note)]: [Note] has no [toString] of its own, so the one of
    [Object.prototype] answers. *)
Definition Note_toString (r : loc) : string := "[object Object]".

(** [String(array)], that is [array.join(",")]. *)
Fixpoint Array_toString (l : list loc) : string :=
  match l with
  | [] => EmptyString
  | [r] => Note_toString r
  | r :: rest => Note_toString r +:+ "," +:+ Array_toString rest
  end.

(** The callback up to its [await]: nothing on an empty buffer; otherwise
    the array is kept in the constant [buffer], the field is bound to a new
    empty array, and [fetch] is called.  [body: buffer] hands [fetch] the
    array itself, which it converts to a string.  The result is the request
    and the constant [buffer] of the suspended callback. *)
Definition flush_start : M (option (Request * aloc)) :=
  let* cur := get__buffer in
  let* l := Array_read cur in
  if bool_decide (0 < length l)%nat then
    let buffer := cur in
    let* fresh := Array_alloc [] in
    set__buffer fresh >>
    let* sent := Array_read buffer in
    ret (Some (mkRequest "/" "POST" [("Content-Type", "application/json")]
                 (Array_toString sent),
               buffer))
  else ret None.

(** The callback from its [await] on.  A rejected promise makes [await]
    throw, and nothing in the callback catches it. *)
Definition flush_resume (buffer : aloc) (o : Settled) : M unit :=
  match o with
  | Rejected => throw FetchError
  | Fulfilled status =>
      if negb (ok status) then
        let* old := Array_read buffer in
        let* cur := get__buffer in
        let* new := Array_read cur in
        let* merged := Array_alloc (old ++ new) in
        set__buffer merged
      else ret tt
  end.

End MIDI.

Import MIDI.

(** ** The event loop *)

(** The program between two reactions: the state and the constants
    [buffer] of the flush callbacks that are suspended at their [await]. *)
Record System : Type := mkSystem {
  st : State;
  inflight : list aloc
}.

Definition System_init (ts : string) : System :=
  mkSystem (MIDI.constructor ts) [].

(** One reaction of the event loop: a signal is dispatched and handled at
    clock reading [now], the timer fires, or the promise of the pending
    [fetch] number [i] settles. *)
Inductive Reaction : Type :=
| Sig (now : Z) (sig : Signal)
| Tick
| Settle (i : nat) (o : Settled).

(** An exception that leaves the flush callback rejects its promise, which
    nobody awaits; the state keeps what the callback did. *)
Definition react (ρ : Reaction) (σ : System) : System :=
  match ρ with
  | Sig now sig => mkSystem (dispatch now sig (st σ)) (inflight σ)
  | Tick =>
      match flush_start (st σ) with
      | (Normal (Some (_, buffer)), s') => mkSystem s' (inflight σ ++ [buffer])
      | (_, s') => mkSystem s' (inflight σ)
      end
  | Settle i o =>
      match inflight σ !! i with
      | Some buffer =>
          mkSystem (snd (flush_resume buffer o (st σ))) (delete i (inflight σ))
      | None => σ
      end
  end.

Fixpoint react_all (ρs : list Reaction) (σ : System) : System :=
  match ρs with
  | [] => σ
  | ρ :: rest => react_all rest (react ρ σ)
  end.

(** The signals among the reactions, in order. *)
Fixpoint signals_of (ρs : list Reaction) : list Signal :=
  match ρs with
  | [] => []
  | Sig _ sig :: rest => sig :: signals_of rest
  | _ :: rest => signals_of rest
  end.

Definition step (σ σ' : System) : Prop := ∃ ρ, σ' = react ρ σ.

Definition reachable (ts : string) (σ : System) : Prop :=
  rtc step (System_init ts) σ.

(** The contents of the array that [this._buffer] is bound to. *)
Definition pending (s : State) : list loc :=
  default [] (array_heap s !! _buffer s).

(** The contents of an array of the store. *)
Definition contents (s : State) (a : aloc) : list loc :=
  default [] (array_heap s !! a).

(** ** What [JSON.stringify] writes

    The flush callback does not call it; it is the serialisation that the
    header of the request announces, kept here to compare the body with. *)

Module JSON.

Definition quote : string := String (ascii_of_nat 34) EmptyString.

(** A string without characters to escape. *)
Definition str (s : string) : string := quote +:+ s +:+ quote.

(** A property value; [None] for a value that makes [JSON.stringify] leave
    the property out.  The views of [Note.toJSON] hold no object. *)
Definition value (v : JSVal) : option string :=
  match v with
  | VUndefined => None
  | VNull => Some "null"
  | VBool b => Some (if b then "true" else "false")
  | VNum n => Some (pretty n)
  | VStr s => Some (str s)
  | VObj _ => None
  end.

Definition member (kv : string * JSVal) : option string :=
  match value (snd kv) with
  | Some v => Some (str (fst kv) +:+ ":" +:+ v)
  | None => None
  end.

Definition object (view : list (string * JSVal)) : string :=
  "{" +:+ String.concat "," (omap member view) +:+ "}".

Definition array (views : list (list (string * JSVal))) : string :=
  "[" +:+ String.concat "," (map object views) +:+ "]".

(** [JSON.stringify(l)] for an array [l] of [Note]s, each through its
    [toJSON]. *)
Definition stringify (now : Z) (heap : list Note.t) (l : list loc) : string :=
  array (omap (λ r, Note.toJSON now <$> heap !! r) l).

End JSON.

(** ** Invariants of the event loop *)

(** The [Note] behind a reference has its duration set. *)
Definition frozen (s : State) (r : loc) : Prop :=
  ∃ n, note_heap s !! r = Some n ∧ Note.playing n = false.

(** What every reaction preserves: the buffer field is bound to an array;
    the registry maps a key to a logged, sounding [Note] of that key; an
    array of a suspended flush is in the store and is not the one the field
    is bound to; everything queued, pending or in flight, is frozen and
    logged. *)
Record wf (σ : System) : Prop := mk_wf {
  wf_buffer : is_Some (array_heap (st σ) !! _buffer (st σ));
  wf_notes : ∀ k r, notes (st σ) !! k = Some r →
    r ∈ log (st σ) ∧
    ∃ n, note_heap (st σ) !! r = Some n ∧ Note.key n = k ∧ Note.playing n = true;
  wf_inflight : ∀ a, a ∈ inflight σ →
    is_Some (array_heap (st σ) !! a) ∧ a ≠ _buffer (st σ);
  wf_queued : ∀ a r, a = _buffer (st σ) ∨ a ∈ inflight σ →
    r ∈ contents (st σ) a → frozen (st σ) r ∧ r ∈ log (st σ)
}.

(** ** Vocabulary of the statements *)

(** No release of key [k] among the signals. *)
Definition no_KeyUp (k : Z) (sigs : list Signal) : Prop :=
  ∀ d, KeyUp d ∈ sigs → d_key d ≠ k.

(** A [KeyDown] for key [k] has occurred with no subsequent [KeyUp] for
    it. *)
Definition held (k : Z) (sigs : list Signal) : Prop :=
  ∃ pre d post,
    sigs = pre ++ KeyDown d :: post ∧ d_key d = k ∧ no_KeyUp k post.

(** A reaction that is not a signal for key [k]. *)
Definition not_for (k : Z) (ρ : Reaction) : Prop :=
  match ρ with
  | Sig _ sig => signal_key sig ≠ k
  | _ => True
  end.

(** Two handled signals that differ at most in the velocity and the
    timestamp of a [KeyUp]: same clock reading at handling, and either the
    same signal or two releases of the same key. *)
Definition same_but_KeyUp_fields (a b : Z * Signal) : Prop :=
  fst a = fst b ∧
  (snd a = snd b ∨
   ∃ d1 d2, snd a = KeyUp d1 ∧ snd b = KeyUp d2 ∧ d_key d1 = d_key d2).

(** State [s1] is state [s] with the array [batch ++ l] of the buffer field
    replaced by a separate array [l]: what a flush tick makes of [s], and
    what the listeners keep between the two. *)
Definition detached (batch : list loc) (s s1 : State) : Prop :=
  _TIMESTAMP s1 = _TIMESTAMP s ∧ _no s1 = _no s ∧
  note_heap s1 = note_heap s ∧ notes s1 = notes s ∧
  log s1 = log s ∧ emitted s1 = emitted s ∧
  ∃ l, array_heap s1 !! _buffer s1 = Some l
     ∧ array_heap s !! _buffer s = Some (batch ++ l).

(** ** A sample run

    Key 60 is pressed with velocity 80 at 1000 ms and released by a signal
    stamped 1500 ms that its listener handles when the clock reads 1501. *)

Definition sample_ts : string := "1700000000.123".

Definition sample_signals : list (Z * Signal) :=
  [ (1000, KeyDown (mkDetail 60 80 1000));
    (1501, KeyUp (mkDetail 60 0 1500)) ].

Definition sample_state : State := run sample_signals (MIDI.constructor sample_ts).

Definition sample_system : System := mkSystem sample_state [].

(** The sample run followed by a timer tick: the completed note is the
    batch of a send in flight. *)
Definition sample_in_flight : System := react Tick sample_system.

(** Three presses and releases; the timer fires after the second release,
    the sink answers 503 after the third, and the timer fires again. *)
Definition retry_reactions : list Reaction :=
  [ Sig 1000 (KeyDown (mkDetail 60 80 1000)); Sig 1500 (KeyUp (mkDetail 60 0 1500));
    Sig 1600 (KeyDown (mkDetail 62 70 1600)); Sig 1900 (KeyUp (mkDetail 62 0 1900));
    Tick;
    Sig 2000 (KeyDown (mkDetail 64 90 2000)); Sig 2400 (KeyUp (mkDetail 64 0 2400));
    Settle 0 (Fulfilled 503);
    Tick ].

(** ** The listener of raw MIDI messages

    The listener that [initialize] adds to every input for ['midimessage']:
    it reads command, key and velocity off the bytes and dispatches
    ['_noteon'] or ['_noteoff']. *)

Definition NOTE_OFF : Z := 8.
Definition NOTE_ON : Z := 9.

(** The number that a byte of a [Uint8Array] reads as. *)
Definition byte_value (b : Byte.byte) : Z := Z.of_N (Byte.to_N b).

(** [midiMessage.data[i]]: a byte of the [Uint8Array], or [None]
    ([undefined]) beyond its length. *)
Definition data_at (data : list Byte.byte) (i : nat) : option Z :=
  byte_value <$> data !! i.

(** [data[0] >> 4] *)
Definition command_of (data : list Byte.byte) : Z :=
  match data_at data 0 with
  | Some b => Z.shiftr b 4
  | None => 0
  end.

(** What the listener dispatches: the type of the internal event, and the
    key and velocity of its detail (the timestamp is the clock reading).  A
    key [None] is [NaN], which is [Number(undefined)]. *)
Record Parsed : Type := mkParsed {
  p_type : string;
  p_key : option Z;
  p_velocity : Z
}.

(** The body of the listener up to the dispatch; [None] when it dispatches
    nothing.  [undefined >> 4] is 0.  The velocity is [data[2]] when
    [data.length > 2], which is when [data[2]] is defined, and 1
    otherwise. *)
Definition parse (data : list Byte.byte) : option Parsed :=
  let command := command_of data in
  let key := data_at data 1 in
  let velocity :=
    match data_at data 2 with
    | Some v => v
    | None => 1
    end in
  let command := if velocity =? 0 then NOTE_OFF else command in
  if command =? NOTE_ON then Some (mkParsed "_noteon" key (Z.max 1 velocity))
  else if command =? NOTE_OFF then Some (mkParsed "_noteoff" key 0)
  else None.

(** The listener: [now] is the clock reading taken for the timestamp of the
    detail, [now'] the one taken by the [duration] getter when ['_noteoff']
    is handled.  The registry of the model has integer keys: the result is
    [None] for a dispatch with key [NaN]. *)
Definition midimessage (data : list Byte.byte) (now now' : Z) (σ : System)
  : option System :=
  match parse data with
  | None => Some σ
  | Some p =>
      match p_key p with
      | None => None
      | Some k =>
          if String.eqb (p_type p) "_noteon"
          then Some (react (Sig now (KeyDown (mkDetail k (p_velocity p) now))) σ)
          else Some (react (Sig now' (KeyUp (mkDetail k (p_velocity p) now))) σ)
      end
  end.




(** ** [initialize] and the promise of [requestMIDIAccess] *)

(** How a call of [initialize] ends. *)
Inductive Outcome : Type :=
| Returned
| Threw (message : string).

(** The [MIDI] object in its page: the field [_midiAccess] ([None] is
    [null]; a [MIDIAccess] is given by its inputs), whether the platform
    has [navigator.requestMIDIAccess], the calls of it whose promise is not
    settled yet, the inputs of the [addEventListener] calls made so far
    (each call passes a new function), the number of timers installed by
    [setInterval], and the number of calls of [console.log]. *)
Record Page : Type := mkPage {
  midi : System;
  _midiAccess : option (list nat);
  requestMIDIAccess : bool;
  requests : nat;
  listeners : list nat;
  intervals : nat;
  console : nat
}.

Definition Page_init (ts : string) (supported : bool) : Page :=
  mkPage (System_init ts) None supported 0 [] 0 0.

(** [initialize()] up to the return of [then]. *)
Definition initialize (p : Page) : Outcome * Page :=
  match _midiAccess p with
  | Some _ => (Returned, p)
  | None =>
      if requestMIDIAccess p
      then (Returned,
            mkPage (midi p) (_midiAccess p) (requestMIDIAccess p)
              (S (requests p)) (listeners p) (intervals p) (console p))
      else (Threw "navigator.requestMIDIAccess is not a function", p)
  end.

(** The first callback of [then], run with the [MIDIAccess] of a fulfilled
    promise. *)
Definition access_granted (inputs : list nat) (p : Page) : Page :=
  mkPage
    (mkSystem (snd (dispatchEvent (mkEvent "midiaccess" VNull) (st (midi p))))
       (inflight (midi p)))
    (Some inputs) (requestMIDIAccess p) (requests p)
    (listeners p ++ inputs) (S (intervals p)) (console p).

(** The second callback of [then]: [console.log]. *)
Definition access_refused (p : Page) : Page :=
  mkPage (midi p) (_midiAccess p) (requestMIDIAccess p) (requests p)
    (listeners p) (intervals p) (S (console p)).

(** What happens to the page: a call of [initialize], or the settling of
    one of the outstanding promises. *)
Inductive PageEvent : Type :=
| Initialize
| Grant (inputs : list nat)
| Refuse.

Definition page_react (e : PageEvent) (p : Page) : Page :=
  match e with
  | Initialize => snd (initialize p)
  | Grant inputs =>
      match requests p with
      | O => p
      | S n =>
          access_granted inputs
            (mkPage (midi p) (_midiAccess p) (requestMIDIAccess p) n
               (listeners p) (intervals p) (console p))
      end
  | Refuse =>
      match requests p with
      | O => p
      | S n =>
          access_refused
            (mkPage (midi p) (_midiAccess p) (requestMIDIAccess p) n
               (listeners p) (intervals p) (console p))
      end
  end.

Fixpoint page_react_all (es : list PageEvent) (p : Page) : Page :=
  match es with
  | [] => p
  | e :: rest => page_react_all rest (page_react e p)
  end.

(** [initialize] is never called while a request is outstanding. *)
Fixpoint patient (es : list PageEvent) (p : Page) : Prop :=
  match es with
  | [] => True
  | e :: rest =>
      (e = Initialize → requests p = 0%nat) ∧ patient rest (page_react e p)
  end.

(** ** Accounting for completed notes *)

(** Everything queued: the batches of the sends in flight, then the pending
    array. *)
Definition queued (σ : System) : list loc :=
  flat_map (contents (st σ)) (inflight σ) ++ pending (st σ).

(** The [Note] that a reaction completes: the one a [KeyUp] finds in the
    registry. *)
Definition completes (ρ : Reaction) (σ : System) : list loc :=
  match ρ with
  | Sig _ (KeyUp d) =>
      match notes (st σ) !! d_key d with
      | Some r => [r]
      | None => []
      end
  | _ => []
  end.

(** The batch of the send that a reaction settles. *)
Definition batch_of (σ : System) (i : nat) : list loc :=
  match inflight σ !! i with
  | Some buffer => contents (st σ) buffer
  | None => []
  end.

(** The notes that a reaction delivers: the batch of a send that the sink
    accepts. *)
Definition delivers (ρ : Reaction) (σ : System) : list loc :=
  match ρ with
  | Settle i (Fulfilled status) => if ok status then batch_of σ i else []
  | _ => []
  end.

(** The notes that a reaction drops: the batch of a send whose promise is
    rejected. *)
Definition drops (ρ : Reaction) (σ : System) : list loc :=
  match ρ with
  | Settle i Rejected => batch_of σ i
  | _ => []
  end.

(** What a sequence of reactions does in total, from [σ] on. *)
Fixpoint collect (f : Reaction → System → list loc)
    (ρs : list Reaction) (σ : System) : list loc :=
  match ρs with
  | [] => []
  | ρ :: rest => f ρ σ ++ collect f rest (react ρ σ)
  end.

(** The details of the presses among the signals, in order. *)
Fixpoint presses (sigs : list Signal) : list Detail :=
  match sigs with
  | [] => []
  | KeyDown d :: rest => d :: presses rest
  | KeyUp _ :: rest => presses rest
  end.

(** The [Note] behind [r] was constructed from the detail [d]. *)
Definition records (s : State) (r : loc) (d : Detail) : Prop :=
  ∃ n, note_heap s !! r = Some n
    ∧ Note.key n = d_key d ∧ Note.velocity n = d_velocity d
    ∧ Note.timestamp n = d_timestamp d.

(** A [Note] later in its life: the same identifier, key, velocity and
    timestamp, and the same duration if it was frozen. *)
Definition later_of (n n' : Note.t) : Prop :=
  Note._id n' = Note._id n ∧ Note.key n' = Note.key n ∧
  Note.velocity n' = Note.velocity n ∧ Note.timestamp n' = Note.timestamp n ∧
  ∀ d, Note._duration n = Some d → Note._duration n' = Some d.

(** ** Equations of the listeners *)

Lemma _noteon_eq d s :
  _noteon d s =
  (Normal tt,
   {| _TIMESTAMP := _TIMESTAMP s;
      _no := Note.incr (_no s);
      note_heap := note_heap s ++
        [Note.mk (_TIMESTAMP s +:+ "." +:+ pretty (_no s))
                 (d_key d) (d_velocity d) (d_timestamp d) None];
      array_heap := array_heap s;
      notes := <[d_key d := length (note_heap s)]> (notes s);
      log := log s ++ [length (note_heap s)];
      _buffer := _buffer s;
      emitted := (emitted s ++ [mkEvent "beforenoteon" (VObj (length (note_heap s)))])
                   ++ [mkEvent "noteon" (VObj (length (note_heap s)))] |}).
Proof. reflexivity. Qed.

Lemma _noteoff_inactive now d s :
  notes s !! d_key d = None →
  _noteoff now d s = (Throw (TypeError "duration"), s).
Proof.
  intros H. unfold _noteoff, bind, notes_get. rewrite H. reflexivity.
Qed.

Lemma _noteoff_active now d s r n l :
  notes s !! d_key d = Some r →
  note_heap s !! r = Some n →
  array_heap s !! _buffer s = Some l →
  _noteoff now d s =
  (Normal tt,
   {| _TIMESTAMP := _TIMESTAMP s;
      _no := _no s;
      note_heap := <[r := Note.set__duration (Note.duration now n) n]> (note_heap s);
      array_heap := <[_buffer s := l ++ [r]]> (array_heap s);
      notes := delete (d_key d) (notes s);
      log := log s;
      _buffer := _buffer s;
      emitted := (emitted s ++ [mkEvent "beforenoteoff" VNull])
                   ++ [mkEvent "noteoff" (VObj r)] |}).
Proof.
  intros Hk Hr Ha.
  unfold _noteoff, bind, notes_get. rewrite Hk. simpl.
  unfold Note_read. rewrite Hr. simpl.
  unfold Array_push, bind, Array_read. simpl. rewrite Ha. reflexivity.
Qed.

(** The listeners never rebind [this._buffer] and never write to an array
    other than the one it is bound to; they never touch [this.log] except
    to extend it. *)
Lemma dispatch_buffer now sig s : _buffer (dispatch now sig s) = _buffer s.
Proof.
  unfold dispatch. destruct sig as [d|d]; simpl; [reflexivity|].
  unfold _noteoff, bind, notes_get.
  destruct (notes s !! d_key d) as [r|]; simpl; [|reflexivity].
  unfold Note_read. destruct (note_heap s !! r) as [n|]; simpl; [|reflexivity].
  unfold Array_push, bind, Array_read. simpl.
  destruct (array_heap s !! _buffer s); reflexivity.
Qed.

Lemma dispatch_array_ne now sig s a :
  a ≠ _buffer s →
  array_heap (dispatch now sig s) !! a = array_heap s !! a.
Proof.
  intros Hne. unfold dispatch. destruct sig as [d|d]; simpl; [reflexivity|].
  unfold _noteoff, bind, notes_get.
  destruct (notes s !! d_key d) as [r|]; simpl; [|reflexivity].
  unfold Note_read. destruct (note_heap s !! r) as [n|]; simpl; [|reflexivity].
  unfold Array_push, bind, Array_read. simpl.
  destruct (array_heap s !! _buffer s); simpl; [|reflexivity].
  by rewrite list_lookup_insert_ne.
Qed.

(** ** Equations of the flush callback *)

Lemma flush_start_empty s :
  array_heap s !! _buffer s = Some [] →
  flush_start s = (Normal None, s).
Proof.
  intros H. unfold flush_start, bind, get__buffer, Array_read. simpl.
  rewrite H. reflexivity.
Qed.

Lemma flush_start_nonempty s l :
  array_heap s !! _buffer s = Some l →
  l ≠ [] →
  flush_start s =
  (Normal (Some (mkRequest "/" "POST" [("Content-Type", "application/json")]
                   (Array_toString l),
                 _buffer s)),
   {| _TIMESTAMP := _TIMESTAMP s;
      _no := _no s;
      note_heap := note_heap s;
      array_heap := array_heap s ++ [[]];
      notes := notes s;
      log := log s;
      _buffer := length (array_heap s);
      emitted := emitted s |}).
Proof.
  intros H Hl. unfold flush_start, bind, get__buffer, Array_read. simpl.
  rewrite H. simpl.
  rewrite bool_decide_true by (destruct l; [done | simpl; lia]).
  simpl. rewrite lookup_app_l by (by eapply lookup_lt_Some).
  rewrite H. reflexivity.
Qed.

Lemma flush_resume_rejected buffer s :
  flush_resume buffer Rejected s = (Throw FetchError, s).
Proof. reflexivity. Qed.

Lemma flush_resume_ok buffer status s :
  ok status = true →
  flush_resume buffer (Fulfilled status) s = (Normal tt, s).
Proof. intros H. unfold flush_resume. rewrite H. reflexivity. Qed.

Lemma flush_resume_not_ok buffer status s old new :
  ok status = false →
  array_heap s !! buffer = Some old →
  array_heap s !! _buffer s = Some new →
  flush_resume buffer (Fulfilled status) s =
  (Normal tt,
   {| _TIMESTAMP := _TIMESTAMP s;
      _no := _no s;
      note_heap := note_heap s;
      array_heap := array_heap s ++ [old ++ new];
      notes := notes s;
      log := log s;
      _buffer := length (array_heap s);
      emitted := emitted s |}).
Proof.
  intros H Ho Hn. unfold flush_resume. rewrite H. simpl.
  unfold bind, Array_read, get__buffer. rewrite Ho. simpl. rewrite Hn.
  reflexivity.
Qed.

(** ** Frozen notes stay as they are *)

Lemma frozen_set__duration now n :
  Note.playing n = false →
  Note.set__duration (Note.duration now n) n = n.
Proof.
  destruct n as [i k v t [d|]]; [reflexivity | discriminate].
Qed.

Lemma dispatch_frozen_note now sig s r n :
  note_heap s !! r = Some n →
  Note.playing n = false →
  note_heap (dispatch now sig s) !! r = Some n.
Proof.
  intros Hr Hn. unfold dispatch. destruct sig as [d|d]; simpl.
  - by apply lookup_app_l_Some.
  - unfold _noteoff, bind, notes_get.
    destruct (notes s !! d_key d) as [r'|]; simpl; [|done].
    unfold Note_read. destruct (note_heap s !! r') as [n'|] eqn:Hr'; simpl; [|done].
    assert (<[r' := Note.set__duration (Note.duration now n') n']> (note_heap s) !! r
            = Some n) as Hw.
    { destruct (decide (r' = r)) as [->|Hne].
      - rewrite Hr in Hr'. injection Hr' as <-.
        rewrite frozen_set__duration by done.
        rewrite list_lookup_insert_eq; [done | by eapply lookup_lt_Some].
      - by rewrite list_lookup_insert_ne. }
    unfold Array_push, bind, Array_read. simpl.
    destruct (array_heap s !! _buffer s); simpl; exact Hw.
Qed.

Lemma flush_start_note_heap s : note_heap (snd (flush_start s)) = note_heap s.
Proof.
  unfold flush_start, bind, get__buffer, Array_read. simpl.
  destruct (array_heap s !! _buffer s) as [l|]; simpl; [|done].
  case_bool_decide; simpl; [|done].
  destruct ((array_heap s ++ [[]]) !! _buffer s); reflexivity.
Qed.

Lemma flush_resume_note_heap buffer o s :
  note_heap (snd (flush_resume buffer o s)) = note_heap s.
Proof.
  destruct o as [status|]; simpl; [|done].
  destruct (negb (ok status)); simpl; [|done].
  unfold bind, Array_read, get__buffer.
  destruct (array_heap s !! buffer); simpl; [|done].
  destruct (array_heap s !! _buffer s); reflexivity.
Qed.

Lemma flush_start_notes s : notes (snd (flush_start s)) = notes s.
Proof.
  unfold flush_start, bind, get__buffer, Array_read. simpl.
  destruct (array_heap s !! _buffer s) as [l|]; simpl; [|done].
  case_bool_decide; simpl; [|done].
  destruct ((array_heap s ++ [[]]) !! _buffer s); reflexivity.
Qed.

Lemma flush_resume_notes buffer o s :
  notes (snd (flush_resume buffer o s)) = notes s.
Proof.
  destruct o as [status|]; simpl; [|done].
  destruct (negb (ok status)); simpl; [|done].
  unfold bind, Array_read, get__buffer.
  destruct (array_heap s !! buffer); simpl; [|done].
  destruct (array_heap s !! _buffer s); reflexivity.
Qed.

(** The timer and the settling of a [fetch] leave the registry alone. *)
Lemma react_notes_flush ρ σ :
  (∀ now sig, ρ ≠ Sig now sig) →
  notes (st (react ρ σ)) = notes (st σ).
Proof.
  intros Hρ. destruct ρ as [now sig| |i o]; simpl.
  - by destruct (Hρ now sig).
  - pose proof (flush_start_notes (st σ)) as Hn.
    by destruct (flush_start (st σ)) as [[[[req b]|]|e] s'].
  - destruct (inflight σ !! i); simpl; [|done].
    apply flush_resume_notes.
Qed.

Lemma react_note_heap_flush ρ σ :
  (∀ now sig, ρ ≠ Sig now sig) →
  note_heap (st (react ρ σ)) = note_heap (st σ).
Proof.
  intros Hρ. destruct ρ as [now sig| |i o]; simpl.
  - by destruct (Hρ now sig).
  - pose proof (flush_start_note_heap (st σ)) as Hn.
    by destruct (flush_start (st σ)) as [[[[req b]|]|e] s'].
  - destruct (inflight σ !! i); simpl; [|done].
    apply flush_resume_note_heap.
Qed.

Lemma step_frozen_note σ σ' r n :
  step σ σ' →
  note_heap (st σ) !! r = Some n →
  Note.playing n = false →
  note_heap (st σ') !! r = Some n.
Proof.
  intros [ρ ->] Hr Hn. destruct ρ as [now sig| |i o]; simpl.
  - by apply dispatch_frozen_note.
  - pose proof (flush_start_note_heap (st σ)) as Hh.
    destruct (flush_start (st σ)) as [[[[req b]|]|e] s']; simpl in *;
      by rewrite Hh.
  - destruct (inflight σ !! i); simpl; [|done].
    by rewrite flush_resume_note_heap.
Qed.

Lemma steps_frozen_note σ σ' r n :
  rtc step σ σ' →
  note_heap (st σ) !! r = Some n →
  Note.playing n = false →
  note_heap (st σ') !! r = Some n.
Proof.
  induction 1 as [|σ1 σ2 σ3 H12 _ IH]; [done|].
  intros Hr Hn. apply IH; [|done]. by eapply step_frozen_note.
Qed.

(** ** The invariant holds in every state of the program *)

Lemma dispatch_KeyDown now d s :
  dispatch now (KeyDown d) s = snd (_noteon d s).
Proof. reflexivity. Qed.

Lemma dispatch_KeyUp now d s :
  dispatch now (KeyUp d) s = snd (_noteoff now d s).
Proof. reflexivity. Qed.

Lemma wf_init ts : wf (System_init ts).
Proof.
  split; simpl.
  - by eexists.
  - intros k r H. by rewrite lookup_empty in H.
  - intros a H. by apply elem_of_nil in H.
  - intros a r [->|H] Hr.
    + unfold contents in Hr. simpl in Hr. by apply elem_of_nil in Hr.
    + by apply elem_of_nil in H.
Qed.

Lemma wf_KeyDown now d σ :
  wf σ → wf (mkSystem (dispatch now (KeyDown d) (st σ)) (inflight σ)).
Proof.
  intros [Hb Hn Hi Hq]. rewrite dispatch_KeyDown, _noteon_eq.
  split; simpl.
  - done.
  - intros k r Hk. destruct (decide (d_key d = k)) as [<-|Hne].
    + rewrite lookup_insert_eq in Hk. injection Hk as <-. split.
      * apply elem_of_app. right. by apply list_elem_of_singleton.
      * eexists. split.
        { rewrite lookup_app_r by lia. by rewrite Nat.sub_diag. }
        done.
    + rewrite lookup_insert_ne in Hk by done.
      destruct (Hn k r Hk) as (Hlog & n & Hr & Hkey & Hp). split.
      * apply elem_of_app. by left.
      * exists n. split; [|done]. by apply lookup_app_l_Some.
  - done.
  - intros a r Ha Hr. destruct (Hq a r Ha Hr) as ((n & Hn' & Hp) & Hlog). split.
    + exists n. split; [|done]. by apply lookup_app_l_Some.
    + apply elem_of_app. by left.
Qed.

Lemma wf_KeyUp now d σ :
  wf σ → wf (mkSystem (dispatch now (KeyUp d) (st σ)) (inflight σ)).
Proof.
  intros Hwf. pose proof Hwf as [Hb Hn Hi Hq]. rewrite dispatch_KeyUp.
  destruct (notes (st σ) !! d_key d) as [r|] eqn:Hk.
  2:{ rewrite _noteoff_inactive by done. by destruct σ. }
  destruct (Hn _ _ Hk) as (Hlog & n & Hr & Hkey & Hp).
  destruct Hb as [l Hl].
  rewrite (_noteoff_active now d _ r n l) by done.
  assert (∀ r0, frozen (st σ) r0 ∨ r0 = r →
    ∃ n0, <[r := Note.set__duration (Note.duration now n) n]> (note_heap (st σ)) !! r0
          = Some n0 ∧ Note.playing n0 = false) as Hfr.
  { intros r0 Hr0. destruct (decide (r0 = r)) as [->|Hne].
    - eexists. split.
      { apply list_lookup_insert_eq. by eapply lookup_lt_Some. }
      reflexivity.
    - destruct Hr0 as [(n0 & Hn0 & Hp0)|?]; [|done].
      exists n0. split; [|done]. by rewrite list_lookup_insert_ne. }
  split; simpl.
  - rewrite list_lookup_insert_eq; [by eexists | by eapply lookup_lt_Some].
  - intros k r' Hk'.
    destruct (decide (d_key d = k)) as [<-|Hne].
    { by rewrite lookup_delete_eq in Hk'. }
    rewrite lookup_delete_ne in Hk' by done.
    destruct (Hn _ _ Hk') as (Hlog' & n' & Hr' & Hkey' & Hp'). split; [done|].
    exists n'. split; [|done].
    rewrite list_lookup_insert_ne; [done|].
    intros ->. rewrite Hr in Hr'. injection Hr' as <-. congruence.
  - intros a Ha. destruct (Hi a Ha) as [[la Hla] Hne]. split; [|done].
    rewrite list_lookup_insert_ne by done. by eexists.
  - intros a r0 Ha Hr0. unfold contents in Hr0. simpl in Hr0.
    destruct (decide (a = _buffer (st σ))) as [->|Hne].
    + rewrite list_lookup_insert_eq in Hr0 by (by eapply lookup_lt_Some).
      simpl in Hr0. apply elem_of_app in Hr0 as [Hr0|Hr0].
      * assert (frozen (st σ) r0 ∧ r0 ∈ log (st σ)) as [Hf Hlg].
        { apply (Hq (_buffer (st σ)) r0); [by left|].
          unfold contents. by rewrite Hl. }
        split; [|done]. apply Hfr. by left.
      * apply list_elem_of_singleton in Hr0 as ->.
        split; [|done]. apply Hfr. by right.
    + rewrite list_lookup_insert_ne in Hr0 by done.
      destruct Ha as [->|Ha]; [done|].
      destruct (Hq a r0 (or_intror Ha) Hr0) as [Hf Hlg].
      split; [|done]. apply Hfr. by left.
Qed.

Lemma wf_tick_send σ l :
  wf σ →
  array_heap (st σ) !! _buffer (st σ) = Some l →
  wf (mkSystem
        {| _TIMESTAMP := _TIMESTAMP (st σ);
           _no := _no (st σ);
           note_heap := note_heap (st σ);
           array_heap := array_heap (st σ) ++ [[]];
           notes := notes (st σ);
           log := log (st σ);
           _buffer := length (array_heap (st σ));
           emitted := emitted (st σ) |}
        (inflight σ ++ [_buffer (st σ)])).
Proof.
  intros [Hb Hn Hi Hq] Hl. split; simpl.
  - rewrite lookup_app_r by lia. rewrite Nat.sub_diag. by eexists.
  - exact Hn.
  - intros a Ha. apply elem_of_app in Ha as [Ha|Ha].
    + destruct (Hi a Ha) as [[la Hla] Hne]. split.
      * exists la. by apply lookup_app_l_Some.
      * apply lookup_lt_Some in Hla. lia.
    + apply list_elem_of_singleton in Ha as ->. split.
      * exists l. by apply lookup_app_l_Some.
      * apply lookup_lt_Some in Hl. lia.
  - intros a r Ha Hr. unfold contents in Hr. simpl in Hr.
    destruct Ha as [->|Ha].
    { rewrite lookup_app_r in Hr by lia. rewrite Nat.sub_diag in Hr.
      by apply elem_of_nil in Hr. }
    assert (is_Some (array_heap (st σ) !! a)) as [la Hla].
    { apply elem_of_app in Ha as [Ha|Ha].
      - by destruct (Hi a Ha).
      - apply list_elem_of_singleton in Ha as ->. by eexists. }
    rewrite (lookup_app_l_Some _ _ _ _ Hla) in Hr. simpl in Hr.
    apply (Hq a r).
    + apply elem_of_app in Ha as [Ha|Ha]; [by right|].
      apply list_elem_of_singleton in Ha. by left.
    + unfold contents. by rewrite Hla.
Qed.

Lemma wf_remerge σ i buffer old new :
  wf σ →
  inflight σ !! i = Some buffer →
  array_heap (st σ) !! buffer = Some old →
  array_heap (st σ) !! _buffer (st σ) = Some new →
  wf (mkSystem
        {| _TIMESTAMP := _TIMESTAMP (st σ);
           _no := _no (st σ);
           note_heap := note_heap (st σ);
           array_heap := array_heap (st σ) ++ [old ++ new];
           notes := notes (st σ);
           log := log (st σ);
           _buffer := length (array_heap (st σ));
           emitted := emitted (st σ) |}
        (delete i (inflight σ))).
Proof.
  intros [Hb Hn Hi Hq] Hib Ho Hnw.
  assert (buffer ∈ inflight σ) as Hin by (by eapply list_elem_of_lookup_2).
  split; simpl.
  - rewrite lookup_app_r by lia. rewrite Nat.sub_diag. by eexists.
  - exact Hn.
  - intros a Ha. apply list_elem_of_delete_inv in Ha.
    destruct (Hi a Ha) as [[la Hla] Hne]. split.
    + exists la. by apply lookup_app_l_Some.
    + apply lookup_lt_Some in Hla. lia.
  - intros a r Ha Hr. unfold contents in Hr. simpl in Hr.
    destruct Ha as [->|Ha].
    + rewrite lookup_app_r in Hr by lia. rewrite Nat.sub_diag in Hr.
      simpl in Hr. apply elem_of_app in Hr as [Hr|Hr].
      * apply (Hq buffer r); [by right|]. unfold contents. by rewrite Ho.
      * apply (Hq (_buffer (st σ)) r); [by left|]. unfold contents. by rewrite Hnw.
    + apply list_elem_of_delete_inv in Ha.
      destruct (Hi a Ha) as [[la Hla] Hne].
      rewrite (lookup_app_l_Some _ _ _ _ Hla) in Hr. simpl in Hr.
      apply (Hq a r); [by right|]. unfold contents. by rewrite Hla.
Qed.

Lemma wf_drop σ i :
  wf σ → wf (mkSystem (st σ) (delete i (inflight σ))).
Proof.
  intros [Hb Hn Hi Hq]. split; simpl; [done|done| |].
  - intros a Ha. apply Hi. by eapply list_elem_of_delete_inv.
  - intros a r [->|Ha] Hr.
    + apply (Hq (_buffer (st σ)) r); [by left|done].
    + apply (Hq a r); [right; by eapply list_elem_of_delete_inv|done].
Qed.

Lemma wf_react ρ σ : wf σ → wf (react ρ σ).
Proof.
  intros Hwf. destruct ρ as [now [d|d]| |i o]; simpl.
  - by apply wf_KeyDown.
  - by apply wf_KeyUp.
  - destruct (wf_buffer _ Hwf) as [l Hl]. destruct l as [|r l].
    + rewrite (flush_start_empty _ Hl). by destruct σ.
    + rewrite (flush_start_nonempty _ _ Hl) by done. by eapply wf_tick_send.
  - destruct (inflight σ !! i) as [b|] eqn:Hi; [|done].
    destruct o as [status|].
    + destruct (ok status) eqn:Hok.
      * rewrite flush_resume_ok by done. simpl. by apply wf_drop.
      * assert (b ∈ inflight σ) as Hin by (by eapply list_elem_of_lookup_2).
        destruct (wf_inflight _ Hwf b Hin) as [[old Hold] _].
        destruct (wf_buffer _ Hwf) as [new Hnew].
        rewrite (flush_resume_not_ok _ _ _ old new) by done. simpl.
        by eapply wf_remerge.
    + rewrite flush_resume_rejected. simpl. by apply wf_drop.
Qed.

Lemma wf_step σ σ' : step σ σ' → wf σ → wf σ'.
Proof. intros [ρ ->]. apply wf_react. Qed.

Lemma wf_steps σ σ' : rtc step σ σ' → wf σ → wf σ'.
Proof.
  induction 1 as [|σ1 σ2 σ3 H12 _ IH]; [done|].
  intros Hwf. apply IH. by eapply wf_step.
Qed.

Lemma wf_reachable ts σ : reachable ts σ → wf σ.
Proof. intros H. eapply wf_steps; [exact H | apply wf_init]. Qed.

Lemma reachable_run ts sigs σ :
  reachable ts σ → reachable ts (mkSystem (run sigs (st σ)) (inflight σ)).
Proof.
  revert σ. induction sigs as [|[now sig] sigs IH]; intros σ H; simpl.
  - by destruct σ.
  - apply (IH (mkSystem (dispatch now sig (st σ)) (inflight σ))).
    eapply rtc_r; [exact H|]. by exists (Sig now sig).
Qed.

Lemma wf_react_all ρs σ : wf σ → wf (react_all ρs σ).
Proof.
  revert σ. induction ρs as [|ρ ρs IH]; intros σ H; simpl; [done|].
  by apply IH, wf_react.
Qed.

Lemma sample_reachable : reachable sample_ts sample_system.
Proof. apply (reachable_run sample_ts sample_signals (System_init sample_ts)), rtc_refl. Qed.

(** No reference of a state of the program points outside its store. *)
Lemma listener_no_Dangling ts now sig σ :
  reachable ts σ → fst (listener now sig (st σ)) ≠ Throw Dangling.
Proof.
  intros Hwf%wf_reachable. destruct sig as [d|d]; unfold listener.
  - by rewrite _noteon_eq.
  - destruct (notes (st σ) !! d_key d) as [r|] eqn:Hk.
    + destruct (wf_notes _ Hwf _ _ Hk) as (_ & n & Hr & _).
      destruct (wf_buffer _ Hwf) as [l Hl].
      by rewrite (_noteoff_active now d _ r n l).
    + by rewrite _noteoff_inactive.
Qed.

Lemma flush_no_Dangling ts σ :
  reachable ts σ →
  fst (flush_start (st σ)) ≠ Throw Dangling
  ∧ ∀ buffer o, buffer ∈ inflight σ →
      fst (flush_resume buffer o (st σ)) ≠ Throw Dangling.
Proof.
  intros Hwf%wf_reachable. split.
  - destruct (wf_buffer _ Hwf) as [l Hl]. destruct l as [|r l].
    + by rewrite (flush_start_empty _ Hl).
    + by rewrite (flush_start_nonempty _ _ Hl).
  - intros b o Hin. destruct o as [status|]; [|done].
    destruct (ok status) eqn:Hok.
    + by rewrite flush_resume_ok.
    + destruct (wf_inflight _ Hwf b Hin) as [[old Hold] _].
      destruct (wf_buffer _ Hwf) as [new Hnew].
      by rewrite (flush_resume_not_ok _ _ _ old new).
Qed.

(** X19.  No reaction changes the batch of a send in flight: whatever
    happens while a send is outstanding, signals, further ticks, other
    sends settling, its array holds the notes it was sent with. *)
Lemma react_keeps_inflight ts ρ σ a :
  reachable ts σ →
  a ∈ inflight σ →
  contents (st (react ρ σ)) a = contents (st σ) a.
Proof.
  intros Hwf%wf_reachable Hin.
  destruct (wf_inflight _ Hwf a Hin) as [[la Hla] Hne].
  destruct (wf_buffer _ Hwf) as [l Hl].
  unfold contents. destruct ρ as [now sig| |i o]; simpl.
  - by rewrite dispatch_array_ne.
  - destruct l as [|r l].
    + by rewrite (flush_start_empty _ Hl).
    + rewrite (flush_start_nonempty _ _ Hl) by done. simpl.
      by rewrite (lookup_app_l_Some _ _ _ _ Hla), Hla.
  - destruct (inflight σ !! i) as [b|] eqn:Hi; [|done]. simpl.
    destruct o as [status|]; [|done].
    destruct (ok status) eqn:Hok.
    + by rewrite flush_resume_ok.
    + assert (b ∈ inflight σ) as Hb by (by eapply list_elem_of_lookup_2).
      destruct (wf_inflight _ Hwf b Hb) as [[old Hold] _].
      rewrite (flush_resume_not_ok _ _ _ old l) by done. simpl.
      by rewrite (lookup_app_l_Some _ _ _ _ Hla), Hla.
Qed.

(** X20.  A send that the sink refuses with a status outside 200..299,
    whichever of the sends in flight it is: its batch goes back in front
    of what is pending at that moment. *)
Lemma refused_send_remerges ts σ i buffer status :
  reachable ts σ →
  inflight σ !! i = Some buffer →
  ok status = false →
  pending (st (react (Settle i (Fulfilled status)) σ))
  = contents (st σ) buffer ++ pending (st σ).
Proof.
  intros Hwf%wf_reachable Hi Hok.
  assert (buffer ∈ inflight σ) as Hin by (by eapply list_elem_of_lookup_2).
  destruct (wf_inflight _ Hwf buffer Hin) as [[old Hold] _].
  destruct (wf_buffer _ Hwf) as [new Hnew].
  unfold react. rewrite Hi. cbn [st].
  rewrite (flush_resume_not_ok _ _ _ old new) by done.
  unfold pending, contents. simpl.
  rewrite lookup_app_r by lia. rewrite Nat.sub_diag. simpl.
  by rewrite Hold, Hnew.
Qed.

(** The retry after a refused send: the three notes are sent together, in
    the order of their completion, and nothing is left pending. *)
Example retry_sends_all_in_order :
  let σ := react_all retry_reactions (System_init sample_ts) in
  inflight σ = [2%nat]
  ∧ contents (st σ) 2%nat = [0%nat; 1%nat; 2%nat]
  ∧ pending (st σ) = [].
Proof. repeat split. Qed.

(** ** The delivery buffer holds completed, logged notes *)

(** C9.  In every state that the program reaches, every [Note] in the
    delivery buffer (the pending array, and likewise the array of a flush in
    flight) has its duration frozen, so [playing] is false, and is in the
    history log. *)
Theorem buffer_frozen_and_logged ts σ a r :
  reachable ts σ →
  a = _buffer (st σ) ∨ a ∈ inflight σ →
  r ∈ contents (st σ) a →
  (∃ n, note_heap (st σ) !! r = Some n ∧ Note.playing n = false)
  ∧ r ∈ log (st σ).
Proof.
  intros Hreach Ha Hr.
  destruct (wf_queued _ (wf_reachable _ _ Hreach) a r Ha Hr) as [Hf Hl].
  split; [exact Hf | exact Hl].
Qed.

Lemma buffer_frozen_and_logged_witness :
  reachable sample_ts sample_system
  ∧ (0%nat = _buffer (st sample_system) ∨ 0%nat ∈ inflight sample_system)
  ∧ 0%nat ∈ contents (st sample_system) 0%nat
  ∧ ((∃ n, note_heap (st sample_system) !! 0%nat = Some n ∧ Note.playing n = false)
     ∧ 0%nat ∈ log (st sample_system)).
Proof.
  assert (0%nat ∈ contents (st sample_system) 0%nat) as Hin.
  { vm_compute. apply list_elem_of_here. }
  split; [apply sample_reachable|].
  split; [left; reflexivity|].
  split; [exact Hin|].
  apply (buffer_frozen_and_logged sample_ts sample_system 0%nat 0%nat).
  - apply sample_reachable.
  - left. reflexivity.
  - exact Hin.
Defined.

(** ** Press, then release *)

Lemma dispatch_other_key now sig σ k r n :
  wf σ →
  notes (st σ) !! k = Some r →
  note_heap (st σ) !! r = Some n →
  signal_key sig ≠ k →
  notes (dispatch now sig (st σ)) !! k = Some r
  ∧ note_heap (dispatch now sig (st σ)) !! r = Some n.
Proof.
  intros Hwf Hk Hr Hne. destruct sig as [d|d]; simpl in Hne.
  - rewrite dispatch_KeyDown, _noteon_eq. simpl. split.
    + by rewrite lookup_insert_ne.
    + by apply lookup_app_l_Some.
  - rewrite dispatch_KeyUp.
    destruct (notes (st σ) !! d_key d) as [r'|] eqn:Hk'.
    2:{ by rewrite _noteoff_inactive. }
    destruct (wf_notes _ Hwf _ _ Hk') as (_ & n' & Hr' & Hkey' & _).
    destruct (wf_notes _ Hwf _ _ Hk) as (_ & n0 & Hr0 & Hkey0 & _).
    destruct (wf_buffer _ Hwf) as [l Hl].
    rewrite (_noteoff_active now d _ r' n' l) by done. simpl. split.
    + by rewrite lookup_delete_ne.
    + rewrite list_lookup_insert_ne; [done|].
      intros ->. rewrite Hr' in Hr0. injection Hr0 as <-. congruence.
Qed.

Lemma react_all_other_keys ρs σ k r n :
  wf σ →
  notes (st σ) !! k = Some r →
  note_heap (st σ) !! r = Some n →
  Forall (not_for k) ρs →
  notes (st (react_all ρs σ)) !! k = Some r
  ∧ note_heap (st (react_all ρs σ)) !! r = Some n.
Proof.
  revert σ. induction ρs as [|ρ ρs IH]; intros σ Hwf Hk Hr Hall; simpl.
  - done.
  - apply Forall_cons in Hall as [Hne Hall].
    apply IH; [by apply wf_react| | |done].
    + destruct ρ as [now sig| |i o]; [|by rewrite react_notes_flush..].
      by apply (dispatch_other_key now sig σ k r n).
    + destruct ρ as [now sig| |i o]; [|by rewrite react_note_heap_flush..].
      by apply (dispatch_other_key now sig σ k r n).
Qed.

Lemma react_all_app ρs1 ρs2 σ :
  react_all (ρs1 ++ ρs2) σ = react_all ρs2 (react_all ρs1 σ).
Proof. revert σ. induction ρs1 as [|ρ ρs1 IH]; intros σ; simpl; [done | apply IH]. Qed.

(** C1, as the code has it.  A press of key [k] stamped [t], then any
    reactions other than signals for [k], then a release of [k] that its
    listener handles when the clock reads [now1]: the [Note] of the press
    has the key, velocity and timestamp of the press, is no longer playing,
    is the last element of the pending buffer, and its duration reads
    [now1 - t] at every later clock reading and in every later state.  The
    timestamp [t'] of the release signal plays no part. *)
Theorem press_release_duration ts σ k v t now0 others v' t' now1 :
  reachable ts σ →
  Forall (not_for k) others →
  let r := length (note_heap (st σ)) in
  let σ3 := react_all (Sig now0 (KeyDown (mkDetail k v t)) :: others
                       ++ [Sig now1 (KeyUp (mkDetail k v' t'))]) σ in
  ∃ n, note_heap (st σ3) !! r = Some n
    ∧ Note.key n = k ∧ Note.velocity n = v ∧ Note.timestamp n = t
    ∧ Note.playing n = false
    ∧ (∀ now, Note.duration now n = now1 - t)
    ∧ (∃ l, pending (st σ3) = l ++ [r])
    ∧ (∀ σ', rtc step σ3 σ' → note_heap (st σ') !! r = Some n).
Proof.
  intros Hreach Hall r σ3.
  pose proof (wf_reachable _ _ Hreach) as Hwf.
  set (σ1 := react (Sig now0 (KeyDown (mkDetail k v t))) σ).
  pose proof (wf_react (Sig now0 (KeyDown (mkDetail k v t))) σ Hwf) as Hwf1.
  fold σ1 in Hwf1.
  set (n0 := Note.mk (_TIMESTAMP (st σ) +:+ "." +:+ pretty (_no (st σ))) k v t None).
  assert (notes (st σ1) !! k = Some r ∧ note_heap (st σ1) !! r = Some n0)
    as [Hk1 Hr1].
  { unfold σ1, react. rewrite dispatch_KeyDown, _noteon_eq. simpl. split.
    - by rewrite lookup_insert_eq.
    - rewrite lookup_app_r by (unfold r; lia). unfold r.
      by rewrite Nat.sub_diag. }
  set (σ2 := react_all others σ1).
  destruct (react_all_other_keys others σ1 k r n0 Hwf1 Hk1 Hr1 Hall) as [Hk2 Hr2].
  fold σ2 in Hk2, Hr2.
  pose proof (wf_react_all others σ1 Hwf1) as Hwf2. fold σ2 in Hwf2.
  destruct (wf_buffer _ Hwf2) as [l Hl].
  assert (σ3 = react (Sig now1 (KeyUp (mkDetail k v' t'))) σ2) as Hσ3.
  { unfold σ3, σ2, σ1. simpl. by rewrite react_all_app. }
  assert (st σ3 = snd (_noteoff now1 (mkDetail k v' t') (st σ2))) as Hs3
    by (by rewrite Hσ3).
  rewrite (_noteoff_active now1 _ _ r n0 l) in Hs3 by done. simpl in Hs3.
  exists (Note.set__duration (now1 - t) n0).
  assert (note_heap (st σ3) !! r = Some (Note.set__duration (now1 - t) n0)) as Hr3.
  { rewrite Hs3. simpl. apply list_lookup_insert_eq. by eapply lookup_lt_Some. }
  split; [exact Hr3|].
  repeat (split; [reflexivity|]).
  split.
  { exists l. unfold pending. rewrite Hs3. simpl.
    rewrite list_lookup_insert_eq; [done | by eapply lookup_lt_Some]. }
  intros σ' Hsteps.
  by apply (steps_frozen_note σ3 σ').
Qed.

Lemma press_release_duration_witness :
  reachable sample_ts (System_init sample_ts)
  ∧ Forall (not_for 60) [Sig 1200 (KeyDown (mkDetail 62 70 1200)); Tick]
  ∧ ∃ n, note_heap
           (st (react_all
                  (Sig 1000 (KeyDown (mkDetail 60 80 1000))
                   :: [Sig 1200 (KeyDown (mkDetail 62 70 1200)); Tick]
                   ++ [Sig 1501 (KeyUp (mkDetail 60 0 1500))])
                  (System_init sample_ts))) !! 0%nat = Some n
       ∧ ∀ now, Note.duration now n = 1501 - 1000.
Proof.
  split; [apply rtc_refl|].
  split; [repeat constructor; simpl; lia|].
  destruct (press_release_duration sample_ts (System_init sample_ts)
              60 80 1000 1000 [Sig 1200 (KeyDown (mkDetail 62 70 1200)); Tick]
              0 1500 1501)
    as (n & Hn & _ & _ & _ & _ & Hd & _).
  - apply rtc_refl.
  - repeat constructor; simpl; lia.
  - exists n. split; [exact Hn | exact Hd].
Defined.

(** C1, as stated, fails: key 60 is pressed at 1000 and the release signal
    is stamped 1500 but handled when the clock reads 1501; the frozen
    duration is 501, not 1500 - 1000. *)
Lemma press_release_duration_counterexample :
  ∃ n, note_heap
         (run [ (1000, KeyDown (mkDetail 60 80 1000));
                (1501, KeyUp (mkDetail 60 0 1500)) ]
            (MIDI.constructor sample_ts)) !! 0%nat = Some n
    ∧ Note.playing n = false
    ∧ Note.duration 1501 n = 501
    ∧ Note.duration 1501 n ≠ 1500 - 1000.
Proof.
  eexists. split; [reflexivity|]. split; [reflexivity|].
  split; [reflexivity|]. vm_compute. discriminate.
Qed.

(** ** The registry *)

(** The registry entry of a key after one signal. *)
Lemma dispatch_notes now sig σ k :
  wf σ →
  notes (dispatch now sig (st σ)) !! k =
  match sig with
  | KeyDown d =>
      if decide (d_key d = k) then Some (length (note_heap (st σ)))
      else notes (st σ) !! k
  | KeyUp d =>
      if decide (d_key d = k) then None else notes (st σ) !! k
  end.
Proof.
  intros Hwf. destruct sig as [d|d].
  - rewrite dispatch_KeyDown, _noteon_eq. simpl. case_decide as Hk.
    + subst k. by rewrite lookup_insert_eq.
    + by rewrite lookup_insert_ne.
  - rewrite dispatch_KeyUp.
    destruct (notes (st σ) !! d_key d) as [r|] eqn:Hd.
    + destruct (wf_notes _ Hwf _ _ Hd) as (_ & n & Hr & _).
      destruct (wf_buffer _ Hwf) as [l Hl].
      rewrite (_noteoff_active now d _ r n l) by done. simpl.
      case_decide as Hk.
      * subst k. by rewrite lookup_delete_eq.
      * by rewrite lookup_delete_ne.
    + rewrite _noteoff_inactive by done. simpl.
      case_decide as Hk; [by subst k | done].
Qed.

Lemma held_nil k : ¬ held k [].
Proof. intros (pre & d & post & H & _). by destruct pre. Qed.

Lemma held_cons k sig rest :
  held k (sig :: rest) ↔
  ((∃ d, sig = KeyDown d ∧ d_key d = k) ∧ no_KeyUp k rest) ∨ held k rest.
Proof.
  split.
  - intros (pre & d & post & Heq & Hk & Hno). destruct pre as [|p pre]; simpl in Heq.
    + injection Heq as -> ->. left. split; [by exists d | done].
    + injection Heq as -> ->. right. by exists pre, d, post.
  - intros [[(d & -> & Hk) Hno] | (pre & d & post & -> & Hk & Hno)].
    + by exists [], d, rest.
    + by exists (sig :: pre), d, post.
Qed.

Lemma no_KeyUp_nil k : no_KeyUp k [].
Proof. intros d H. by apply elem_of_nil in H. Qed.

Lemma no_KeyUp_cons k sig rest :
  no_KeyUp k (sig :: rest) ↔
  (∀ d, sig = KeyUp d → d_key d ≠ k) ∧ no_KeyUp k rest.
Proof.
  unfold no_KeyUp. split.
  - intros H. split.
    + intros d ->. apply H, list_elem_of_here.
    + intros d Hd. by apply H, list_elem_of_further.
  - intros [H1 H2] d Hd. apply elem_of_cons in Hd as [Hd|Hd]; [by apply H1 | by apply H2].
Qed.

Lemma react_all_notes ρs σ k :
  wf σ →
  is_Some (notes (st (react_all ρs σ)) !! k) ↔
  held k (signals_of ρs)
  ∨ (is_Some (notes (st σ) !! k) ∧ no_KeyUp k (signals_of ρs)).
Proof.
  revert σ. induction ρs as [|ρ ρs IH]; intros σ Hwf; simpl.
  - split.
    + intros H. right. split; [done | apply no_KeyUp_nil].
    + intros [H|[H _]]; [by apply held_nil in H | done].
  - rewrite (IH _ (wf_react ρ σ Hwf)).
    destruct ρ as [now sig| |i o].
    2,3: by rewrite react_notes_flush.
    simpl.
    rewrite (dispatch_notes now sig σ k Hwf), held_cons, no_KeyUp_cons.
    destruct sig as [d|d]; case_decide as Hk.
    + split.
      * intros [H|[_ H]]; [left; by right|]. left. left. split; [by exists d | done].
      * intros [[[_ H]|H]|[_ [_ H]]]; [right|by left|right]; by split.
    + split.
      * intros [H|[H1 H2]]; [left; by right|]. right. split; [done|]. by split.
      * intros [[[(d' & [= <-] & Hd') _]|H]|[H1 [_ H2]]]; [done|by left|by right].
    + split.
      * intros [H|[H _]]; [left; by right | by destruct H].
      * intros [[[(d' & Hd' & _) _]|H]|[_ [H _]]]; [done|by left|].
        by specialize (H d eq_refl).
    + split.
      * intros [H|[H1 H2]]; [left; by right|]. right. split; [done|].
        split; [|done]. by intros d' [= <-].
      * intros [[[(d' & Hd' & _) _]|H]|[H1 [_ H2]]]; [done|by left|by right].
Qed.

Lemma playing_iff s : MIDI.playing s = true ↔ ∃ k, is_Some (notes s !! k).
Proof.
  unfold MIDI.playing. rewrite bool_decide_eq_true. split.
  - intros H. assert (notes s ≠ ∅) as Hne.
    { apply map_size_non_empty_iff. lia. }
    apply map_choose in Hne as (k & r & Hk). by exists k, r.
  - intros (k & r & Hk).
    assert (size (notes s) ≠ 0%nat); [|lia].
    apply map_size_non_empty_iff. intros He. by rewrite He, lookup_empty in Hk.
Qed.

(** C5.  After any sequence of reactions of a new [MIDI] object (signals,
    with timer ticks and settled sends anywhere in between), a key is in
    the registry exactly when a [KeyDown] for it has occurred with no
    subsequent [KeyUp] for it, and [playing] is true exactly when some key
    is in the registry, that is when some key is held. *)
Theorem registry_invariant ts ρs :
  let s := st (react_all ρs (System_init ts)) in
  (∀ k, is_Some (notes s !! k) ↔ held k (signals_of ρs))
  ∧ (MIDI.playing s = true ↔ ∃ k, is_Some (notes s !! k))
  ∧ (MIDI.playing s = true ↔ ∃ k, held k (signals_of ρs)).
Proof.
  intros s.
  assert (∀ k, is_Some (notes s !! k) ↔ held k (signals_of ρs)) as Hreg.
  { intros k. unfold s.
    rewrite (react_all_notes ρs (System_init ts) k (wf_init ts)). simpl. split.
    - intros [H|[[r H] _]]; [done|]. by rewrite lookup_empty in H.
    - intros H. by left. }
  split; [exact Hreg|]. split; [apply playing_iff|].
  rewrite playing_iff. split; intros [k H]; exists k; by apply Hreg.
Qed.

(** ** The fields of a release signal *)

Lemma _noteoff_key_only now d1 d2 s :
  d_key d1 = d_key d2 → _noteoff now d1 s = _noteoff now d2 s.
Proof. intros H. unfold _noteoff. rewrite H. reflexivity. Qed.

Lemma dispatch_same_but_KeyUp_fields a b s :
  same_but_KeyUp_fields a b →
  dispatch (fst a) (snd a) s = dispatch (fst b) (snd b) s.
Proof.
  intros [Hnow [Hsig | (d1 & d2 & H1 & H2 & Hk)]].
  - by rewrite Hnow, Hsig.
  - rewrite Hnow, H1, H2, !dispatch_KeyUp.
    by rewrite (_noteoff_key_only _ d1 d2).
Qed.

(** C10.  Two runs from the same state whose signals are handled at the
    same clock readings and differ at most in the velocity and timestamp
    of their [KeyUp] signals end in the same state: the same registry, log,
    buffer, [Note] objects with their frozen durations, and notifications. *)
Theorem KeyUp_fields_ignored sigs1 sigs2 s :
  Forall2 same_but_KeyUp_fields sigs1 sigs2 →
  run sigs1 s = run sigs2 s.
Proof.
  intros H. revert s.
  induction H as [|[now1 sig1] [now2 sig2] l1 l2 Hab _ IH]; intros s; simpl.
  - reflexivity.
  - pose proof (dispatch_same_but_KeyUp_fields (now1, sig1) (now2, sig2) s Hab)
      as Hd. simpl in Hd. rewrite Hd. apply IH.
Qed.

Lemma KeyUp_fields_ignored_witness :
  Forall2 same_but_KeyUp_fields
    [(1000, KeyDown (mkDetail 60 80 1000)); (1501, KeyUp (mkDetail 60 0 1500))]
    [(1000, KeyDown (mkDetail 60 80 1000)); (1501, KeyUp (mkDetail 60 127 42))]
  ∧ run [(1000, KeyDown (mkDetail 60 80 1000)); (1501, KeyUp (mkDetail 60 0 1500))]
        (MIDI.constructor sample_ts)
    = run [(1000, KeyDown (mkDetail 60 80 1000)); (1501, KeyUp (mkDetail 60 127 42))]
        (MIDI.constructor sample_ts).
Proof.
  assert (Forall2 same_but_KeyUp_fields
    [(1000, KeyDown (mkDetail 60 80 1000)); (1501, KeyUp (mkDetail 60 0 1500))]
    [(1000, KeyDown (mkDetail 60 80 1000)); (1501, KeyUp (mkDetail 60 127 42))]) as H.
  { constructor; [split; [reflexivity | left; reflexivity]|].
    constructor; [|constructor].
    split; [reflexivity|]. right. eexists _, _.
    split; [reflexivity|]. split; reflexivity. }
  split; [exact H|].
  apply (KeyUp_fields_ignored _ _ (MIDI.constructor sample_ts) H).
Defined.

(** ** The flush tick: detaching the batch *)

Lemma detached_dispatch batch now sig s s1 :
  detached batch s s1 →
  detached batch (dispatch now sig s) (dispatch now sig s1).
Proof.
  intros (Hts & Hno & Hh & Hn & Hlog & He & l & Hl1 & Hl).
  destruct sig as [d|d].
  - rewrite !dispatch_KeyDown, !_noteon_eq. simpl.
    rewrite Hts, Hno, Hh, Hn, Hlog, He.
    repeat (split; [reflexivity|]). by exists l.
  - rewrite !dispatch_KeyUp.
    destruct (notes s !! d_key d) as [r|] eqn:Hk.
    2:{ rewrite !_noteoff_inactive by (by rewrite ?Hn). simpl.
        repeat (split; [done|]). by exists l. }
    destruct (note_heap s !! r) as [n|] eqn:Hr.
    + rewrite (_noteoff_active now d s r n (batch ++ l)) by done.
      rewrite (_noteoff_active now d s1 r n l) by (by rewrite ?Hn, ?Hh).
      simpl. rewrite Hts, Hno, Hh, Hn, Hlog, He.
      repeat (split; [reflexivity|]). exists (l ++ [r]). split.
      * apply list_lookup_insert_eq. by eapply lookup_lt_Some.
      * rewrite (assoc_L (++)).
        apply list_lookup_insert_eq. by eapply lookup_lt_Some.
    + assert (∀ s', notes s' !! d_key d = Some r → note_heap s' !! r = None →
                _noteoff now d s' = (Throw Dangling, s')) as Hd.
      { intros s' Hk' Hr'. unfold _noteoff, bind, notes_get. rewrite Hk'. simpl.
        unfold Note_read. by rewrite Hr'. }
      rewrite (Hd s), (Hd s1) by (by rewrite ?Hn, ?Hh). simpl.
      repeat (split; [done|]). by exists l.
Qed.

Lemma detached_run batch sigs s s1 :
  detached batch s s1 →
  detached batch (run sigs s) (run sigs s1).
Proof.
  revert s s1. induction sigs as [|[now sig] sigs IH]; intros s s1 H; simpl.
  - done.
  - by apply IH, detached_dispatch.
Qed.

Lemma run_array_ne sigs s a :
  a ≠ _buffer s →
  array_heap (run sigs s) !! a = array_heap s !! a.
Proof.
  revert s. induction sigs as [|[now sig] sigs IH]; intros s Hne; simpl; [done|].
  rewrite IH by (by rewrite dispatch_buffer). by apply dispatch_array_ne.
Qed.

(** C4.  On a flush tick with a non-empty pending buffer, the callback, up
    to its [await], keeps the pending array as the batch and binds the
    buffer field to a new, empty array.  Whatever signals are handled while
    the send is in flight, the batch array stays as it was, and the notes
    they complete (those that the same signals would have appended after
    the batch, had there been no tick) are the contents of the new pending
    array.  When the send succeeds the callback ends without touching the
    state, so these notes remain pending and the batch is referred to by
    nothing. *)
Theorem flush_detaches_batch s :
  pending s ≠ [] →
  ∃ req s1,
    flush_start s = (Normal (Some (req, _buffer s)), s1)
    ∧ pending s1 = []
    ∧ _buffer s1 ≠ _buffer s
    ∧ contents s1 (_buffer s) = pending s
    ∧ ∀ sigs,
        let s2 := run sigs s1 in
        contents s2 (_buffer s) = pending s
        ∧ pending (run sigs s) = pending s ++ pending s2
        ∧ ∀ status, ok status = true →
            flush_resume (_buffer s) (Fulfilled status) s2 = (Normal tt, s2).
Proof.
  intros Hne. unfold pending in Hne.
  destruct (array_heap s !! _buffer s) as [batch|] eqn:Hb; [|done].
  simpl in Hne. pose proof (lookup_lt_Some _ _ _ Hb) as Hlt.
  eexists _, _. split; [by apply (flush_start_nonempty s batch)|].
  set (s1 := mkState _ _ _ _ _ _ _ _).
  assert (array_heap s1 !! _buffer s1 = Some []) as Hb1.
  { simpl. rewrite lookup_app_r by lia. by rewrite Nat.sub_diag. }
  assert (_buffer s1 ≠ _buffer s) as Hfresh by (simpl; lia).
  assert (array_heap s1 !! _buffer s = Some batch) as Hold.
  { simpl. by apply lookup_app_l_Some. }
  assert (detached batch s s1) as Hdet.
  { repeat (split; [reflexivity|]). exists []. split; [done|].
    by rewrite (right_id_L [] (++)). }
  split; [unfold pending; by rewrite Hb1|].
  split; [done|].
  split; [unfold contents, pending; by rewrite Hold, Hb|].
  intros sigs s2. split; [|split].
  - unfold contents, pending, s2.
    rewrite run_array_ne by done. by rewrite Hold, Hb.
  - destruct (detached_run batch sigs s s1 Hdet)
      as (_ & _ & _ & _ & _ & _ & l & Hl1 & Hl).
    unfold pending, s2. by rewrite Hl, Hl1, Hb.
  - intros status Hok. by apply flush_resume_ok.
Qed.

Lemma flush_detaches_batch_witness :
  pending sample_state ≠ []
  ∧ ∃ req s1,
      flush_start sample_state = (Normal (Some (req, _buffer sample_state)), s1)
      ∧ pending s1 = []
      ∧ contents s1 (_buffer sample_state) = pending sample_state.
Proof.
  assert (pending sample_state ≠ []) as Hne by (vm_compute; discriminate).
  split; [exact Hne|].
  destruct (flush_detaches_batch sample_state Hne)
    as (req & s1 & H1 & H2 & _ & H3 & _).
  exists req, s1. split; [exact H1|]. split; [exact H2 | exact H3].
Defined.

(** ** Where the code departs from its description *)

(** C2.  In the sample run one completed note is pending, and a timer
    tick makes it the batch of a send in flight.  When the sink answers
    with status 500 the batch is merged back in front of the pending notes.
    When the promise of [fetch] is rejected the callback ends at its
    [await] with the exception: the buffer stays empty, no send is in
    flight, and the note is in no queue. *)
Theorem rejected_fetch_loses_batch :
  inflight sample_in_flight = [0%nat]
  ∧ contents (st sample_in_flight) 0%nat = [0%nat]
  ∧ pending (st sample_in_flight) = []
  ∧ pending (st (react (Settle 0 (Fulfilled 500)) sample_in_flight)) = [0%nat]
  ∧ flush_resume 0%nat Rejected (st sample_in_flight)
    = (Throw FetchError, st sample_in_flight)
  ∧ pending (st (react (Settle 0 Rejected) sample_in_flight)) = []
  ∧ inflight (react (Settle 0 Rejected) sample_in_flight) = [].
Proof. repeat split. Qed.

(** C3.  A [KeyUp] for a key that is not in the registry: [notes.get]
    gives [undefined], and reading its [duration] throws a [TypeError] out
    of the listener; the state is as before. *)
Theorem KeyUp_inactive_throws ts now d :
  listener now (KeyUp d) (MIDI.constructor ts)
  = (Throw (TypeError "duration"), MIDI.constructor ts).
Proof. simpl. apply _noteoff_inactive. simpl. apply lookup_empty. Qed.

(** C6.  The notifications of a press and a release of a key on a new
    [MIDI] object: three of them carry the [Note]; the [detail] of
    ['beforenoteoff'] is [null]. *)
Theorem beforenoteoff_detail_null ts k v t now0 v' t' now1 :
  emitted (run [ (now0, KeyDown (mkDetail k v t));
                 (now1, KeyUp (mkDetail k v' t')) ]
             (MIDI.constructor ts))
  = [ mkEvent "beforenoteon" (VObj 0%nat);
      mkEvent "noteon" (VObj 0%nat);
      mkEvent "beforenoteoff" VNull;
      mkEvent "noteoff" (VObj 0%nat) ].
Proof.
  simpl. rewrite dispatch_KeyUp, dispatch_KeyDown, _noteon_eq. simpl.
  erewrite _noteoff_active; simpl.
  - reflexivity.
  - apply lookup_insert_eq.
  - reflexivity.
  - reflexivity.
Qed.

Lemma Array_toString_second r l :
  String.get 1 (Array_toString (r :: l)) = Some "o"%char.
Proof. destruct l; reflexivity. Qed.

Lemma JSON_array_second views :
  String.get 1 (JSON.array views) ≠ Some "o"%char.
Proof.
  unfold JSON.array. destruct views as [|v [|v' views]]; simpl; discriminate.
Qed.

(** C7.  The body of the request of a flush is the array converted to a
    string, ["[object Object]"] for the sample run, and whatever the batch,
    it is not the text that [JSON.stringify] writes for it. *)
Theorem flush_body_not_JSON :
  (∃ s1, flush_start sample_state
         = (Normal (Some (mkRequest "/" "POST"
                            [("Content-Type", "application/json")]
                            "[object Object]", 0%nat)), s1))
  ∧ (∀ now heap r l,
       Array_toString (r :: l) ≠ JSON.stringify now heap (r :: l)).
Proof.
  split.
  - eexists. vm_compute. reflexivity.
  - intros now heap r l H.
    apply (JSON_array_second (omap (λ r, Note.toJSON now <$> heap !! r) (r :: l))).
    fold (JSON.stringify now heap (r :: l)). rewrite <- H.
    apply Array_toString_second.
Qed.

(** C8.  The serialization view of any [Note]: [key], [velocity],
    [timestamp] and the duration read at serialization time, but [id] is
    [undefined]; the identifier set by the constructor is the property
    [_id]. *)
Theorem toJSON_id_undefined now n :
  Note.toJSON now n
  = [ ("id", VUndefined);
      ("key", VNum (Note.key n));
      ("velocity", VNum (Note.velocity n));
      ("timestamp", VNum (Note.timestamp n));
      ("duration", VNum (Note.duration now n)) ]
  ∧ Note.get now n "_id" = VStr (Note._id n).
Proof. split; reflexivity. Qed.

(** * Further properties *)

(** ** Raw messages *)

Lemma byte_value_range b : 0 ≤ byte_value b ≤ 255.
Proof. unfold byte_value. pose proof (Byte.to_N_bounded b). lia. Qed.

Lemma data_at_range data i v : data_at data i = Some v → 0 ≤ v ≤ 255.
Proof.
  unfold data_at. destruct (data !! i) as [b|]; simpl; [|done].
  intros [= <-]. apply byte_value_range.
Qed.

Lemma parse_cases data p :
  parse data = Some p →
  (p_type p = "_noteon" ∧ 1 ≤ p_velocity p ≤ 255)
  ∨ (p_type p = "_noteoff" ∧ p_velocity p = 0).
Proof.
  unfold parse.
  assert (∃ v, match data_at data 2 with Some v => v | None => 1 end = v
               ∧ 0 ≤ v ≤ 255) as (v & -> & Hv).
  { destruct (data_at data 2) as [v|] eqn:H2.
    - exists v. split; [done | by eapply data_at_range].
    - exists 1. split; [done | lia]. }
  destruct (v =? 0) eqn:Hz.
  - simpl. intros [= <-]. by right.
  - apply Z.eqb_neq in Hz.
    destruct (command_of data =? NOTE_ON); [|destruct (command_of data =? NOTE_OFF)].
    + intros [= <-]. left. simpl. split; [done | lia].
    + intros [= <-]. by right.
    + done.
Qed.

(** X1.  Whatever the bytes of a message, a ['_noteon'] that the listener
    dispatches has a velocity between 1 and 255 and a ['_noteoff'] has
    velocity 0, nothing else is dispatched, and the key is the second byte
    of the message ([NaN] only if the message has no second byte). *)
Theorem parse_velocity data p :
  parse data = Some p →
  ((p_type p = "_noteon" ∧ 1 ≤ p_velocity p ≤ 255)
   ∨ (p_type p = "_noteoff" ∧ p_velocity p = 0))
  ∧ p_key p = data_at data 1
  ∧ (p_key p = None ↔ (length data ≤ 1)%nat).
Proof.
  intros Hp. split; [by apply (parse_cases data)|].
  assert (p_key p = data_at data 1) as Hkey.
  { unfold parse in Hp.
    destruct (_ =? NOTE_ON); [by injection Hp as <-|].
    destruct (_ =? NOTE_OFF); [by injection Hp as <-|done]. }
  split; [done|]. rewrite Hkey. unfold data_at.
  rewrite fmap_None, lookup_ge_None. lia.
Qed.

Lemma parse_velocity_witness :
  parse [Byte.x90; Byte.x3c; Byte.x50] = Some (mkParsed "_noteon" (Some 60) 80)
  ∧ p_key (mkParsed "_noteon" (Some 60) 80)
    = data_at [Byte.x90; Byte.x3c; Byte.x50] 1.
Proof.
  split; [reflexivity|].
  apply (parse_velocity [Byte.x90; Byte.x3c; Byte.x50]). reflexivity.
Defined.

Lemma parse_zero_third_byte data :
  data_at data 2 = Some 0 →
  parse data = Some (mkParsed "_noteoff" (data_at data 1) 0).
Proof. intros H. unfold parse. rewrite H. reflexivity. Qed.

(** X2.  A message whose third byte is 0 releases the key in its second
    byte, whatever its status byte: a note-on with velocity 0, and just as
    well a control change or a pitch bend with value 0.  If the key is
    held, its [Note] is frozen, leaves the registry and is appended to the
    pending buffer. *)
Theorem zero_third_byte_releases ts σ s k rest r now now' :
  reachable ts σ →
  notes (st σ) !! byte_value k = Some r →
  ∃ σ', midimessage (s :: k :: Byte.x00 :: rest) now now' σ = Some σ'
    ∧ notes (st σ') !! byte_value k = None
    ∧ frozen (st σ') r
    ∧ pending (st σ') = pending (st σ) ++ [r].
Proof.
  intros Hwf%wf_reachable Hk.
  destruct (wf_notes _ Hwf _ _ Hk) as (_ & n & Hr & _).
  destruct (wf_buffer _ Hwf) as [l Hl].
  unfold midimessage.
  rewrite (parse_zero_third_byte (s :: k :: Byte.x00 :: rest)) by reflexivity.
  eexists. split; [reflexivity|].
  unfold react. cbn [st]. rewrite dispatch_KeyUp.
  rewrite (_noteoff_active now' _ _ r n l) by done.
  unfold pending, frozen. simpl. rewrite Hl. simpl.
  pose proof (lookup_lt_Some _ _ _ Hr) as Hlt.
  pose proof (lookup_lt_Some _ _ _ Hl) as Hlt'.
  split; [apply lookup_delete_eq|]. split.
  - eexists. split; [by apply list_lookup_insert_eq | reflexivity].
  - by rewrite list_lookup_insert_eq.
Qed.

Lemma zero_third_byte_releases_witness :
  reachable sample_ts (react (Sig 1000 (KeyDown (mkDetail 64 80 1000)))
                         (System_init sample_ts))
  ∧ notes (st (react (Sig 1000 (KeyDown (mkDetail 64 80 1000)))
                 (System_init sample_ts))) !! byte_value Byte.x40 = Some 0%nat
  ∧ ∃ σ', midimessage [Byte.xb0; Byte.x40; Byte.x00] 1500 1501
            (react (Sig 1000 (KeyDown (mkDetail 64 80 1000)))
               (System_init sample_ts)) = Some σ'
      ∧ pending (st σ') = [0%nat].
Proof.
  assert (reachable sample_ts (react (Sig 1000 (KeyDown (mkDetail 64 80 1000)))
                                 (System_init sample_ts))) as Hreach.
  { eapply rtc_r; [apply rtc_refl|]. by eexists. }
  split; [exact Hreach|]. split; [reflexivity|].
  destruct (zero_third_byte_releases sample_ts _ Byte.xb0 Byte.x40 [] 0%nat
              1500 1501 Hreach eq_refl) as (σ' & H1 & _ & _ & H2).
  exists σ'. split; [exact H1 | exact H2].
Defined.

(** X3.  The channel of a message, the low four bits of its status byte,
    has no effect: the listener does the same for two messages that differ
    only there. *)
Theorem midimessage_ignores_channel s1 s2 rest now now' σ :
  Z.shiftr (byte_value s1) 4 = Z.shiftr (byte_value s2) 4 →
  midimessage (s1 :: rest) now now' σ = midimessage (s2 :: rest) now now' σ.
Proof.
  intros H. unfold midimessage, parse, command_of, data_at. simpl.
  by rewrite H.
Qed.

Lemma midimessage_ignores_channel_witness :
  Z.shiftr (byte_value Byte.x90) 4 = Z.shiftr (byte_value Byte.x9f) 4
  ∧ midimessage [Byte.x90; Byte.x3c; Byte.x50] 1000 1000 (System_init sample_ts)
    = midimessage [Byte.x9f; Byte.x3c; Byte.x50] 1000 1000 (System_init sample_ts).
Proof.
  split; [reflexivity|].
  apply (midimessage_ignores_channel Byte.x90 Byte.x9f [Byte.x3c; Byte.x50]).
  reflexivity.
Defined.

(** X4.  The listener dispatches nothing exactly when the third byte of
    the message is not 0 and its command is neither note-on nor note-off:
    so for every one-byte real-time message, and for a control change with
    a value other than 0. *)
Theorem parse_ignored_iff data :
  parse data = None ↔
  data_at data 2 ≠ Some 0
  ∧ command_of data ≠ NOTE_ON ∧ command_of data ≠ NOTE_OFF.
Proof.
  unfold parse. destruct (data_at data 2) as [v|] eqn:H2.
  - destruct (v =? 0) eqn:Hz.
    + apply Z.eqb_eq in Hz as ->. simpl. split; [done|]. by intros [H _].
    + apply Z.eqb_neq in Hz.
      destruct (command_of data =? NOTE_ON) eqn:Hon;
        [|destruct (command_of data =? NOTE_OFF) eqn:Hoff].
      * apply Z.eqb_eq in Hon. split; [done|]. by intros (_ & H & _).
      * apply Z.eqb_eq in Hoff. split; [done|]. by intros (_ & _ & H).
      * apply Z.eqb_neq in Hon, Hoff. split; [|done]. intros _.
        split; [congruence | done].
  - simpl.
    destruct (command_of data =? NOTE_ON) eqn:Hon;
      [|destruct (command_of data =? NOTE_OFF) eqn:Hoff].
    + apply Z.eqb_eq in Hon. split; [done|]. by intros (_ & H & _).
    + apply Z.eqb_eq in Hoff. split; [done|]. by intros (_ & _ & H).
    + apply Z.eqb_neq in Hon, Hoff. by split.
Qed.

(** ** What a reaction leaves alone *)

Lemma reachable_ind ts (P : System → Prop) :
  P (System_init ts) →
  (∀ ρ σ, reachable ts σ → P σ → P (react ρ σ)) →
  ∀ σ, reachable ts σ → P σ.
Proof.
  intros Hinit Hstep σ Hreach.
  refine (rtc_ind_r (λ σ, P σ) (System_init ts) Hinit _ σ Hreach).
  intros σ1 σ2 H1 [ρ ->] IH. by apply Hstep.
Qed.

Lemma reachable_react ts ρ σ : reachable ts σ → reachable ts (react ρ σ).
Proof. intros H. eapply rtc_r; [exact H|]. by exists ρ. Qed.

Lemma reachable_react_all ts ρs σ :
  reachable ts σ → reachable ts (react_all ρs σ).
Proof.
  revert σ. induction ρs as [|ρ ρs IH]; intros σ H; simpl; [done|].
  by apply IH, reachable_react.
Qed.

Lemma later_of_refl n : later_of n n.
Proof. by repeat split. Qed.

Lemma later_of_trans n1 n2 n3 : later_of n1 n2 → later_of n2 n3 → later_of n1 n3.
Proof.
  intros (Hi & Hk & Hv & Ht & Hd) (Hi' & Hk' & Hv' & Ht' & Hd').
  repeat split; [congruence..|]. intros d H. by apply Hd', Hd.
Qed.

Lemma later_of_set__duration now n :
  later_of n (Note.set__duration (Note.duration now n) n).
Proof.
  repeat split. intros d H. unfold Note.duration. by rewrite H.
Qed.

(** The timer and the settling of a send touch nothing but the arrays and
    the buffer field. *)
Lemma flush_start_frame s :
  let s' := snd (flush_start s) in
  _TIMESTAMP s' = _TIMESTAMP s ∧ _no s' = _no s ∧ note_heap s' = note_heap s
  ∧ notes s' = notes s ∧ log s' = log s ∧ emitted s' = emitted s.
Proof.
  unfold flush_start, bind, get__buffer, Array_read. simpl.
  destruct (array_heap s !! _buffer s) as [l|]; simpl; [|done].
  case_bool_decide; simpl; [|done].
  destruct ((array_heap s ++ [[]]) !! _buffer s); done.
Qed.

Lemma flush_resume_frame buffer o s :
  let s' := snd (flush_resume buffer o s) in
  _TIMESTAMP s' = _TIMESTAMP s ∧ _no s' = _no s ∧ note_heap s' = note_heap s
  ∧ notes s' = notes s ∧ log s' = log s ∧ emitted s' = emitted s.
Proof.
  destruct o as [status|]; simpl; [|done].
  destruct (negb (ok status)); simpl; [|done].
  unfold bind, Array_read, get__buffer.
  destruct (array_heap s !! buffer); simpl; [|done].
  destruct (array_heap s !! _buffer s); done.
Qed.

Lemma react_flush_frame ρ σ :
  (∀ now sig, ρ ≠ Sig now sig) →
  _TIMESTAMP (st (react ρ σ)) = _TIMESTAMP (st σ)
  ∧ _no (st (react ρ σ)) = _no (st σ)
  ∧ note_heap (st (react ρ σ)) = note_heap (st σ)
  ∧ notes (st (react ρ σ)) = notes (st σ)
  ∧ log (st (react ρ σ)) = log (st σ)
  ∧ emitted (st (react ρ σ)) = emitted (st σ).
Proof.
  intros Hρ. destruct ρ as [now sig| |i o]; simpl.
  - by destruct (Hρ now sig).
  - pose proof (flush_start_frame (st σ)) as H.
    by destruct (flush_start (st σ)) as [[[[req b]|]|e] s'].
  - destruct (inflight σ !! i); simpl; [|done].
    apply flush_resume_frame.
Qed.

(** A release leaves the module variables and the log alone and changes
    at most the duration of one live [Note]. *)
Lemma _noteoff_frame now d s :
  let s' := snd (_noteoff now d s) in
  _TIMESTAMP s' = _TIMESTAMP s ∧ _no s' = _no s ∧ log s' = log s
  ∧ length (note_heap s') = length (note_heap s)
  ∧ ∀ r n, note_heap s !! r = Some n →
      ∃ n', note_heap s' !! r = Some n' ∧ later_of n n'.
Proof.
  unfold _noteoff, bind, notes_get.
  assert (∀ r n, note_heap s !! r = Some n →
            ∃ n', note_heap s !! r = Some n' ∧ later_of n n') as Hsame.
  { intros r n H. exists n. split; [done | apply later_of_refl]. }
  destruct (notes s !! d_key d) as [r'|]; simpl; [|done].
  unfold Note_read. destruct (note_heap s !! r') as [n'|] eqn:Hr'; simpl; [|done].
  assert (∀ r n, note_heap s !! r = Some n →
            ∃ n0, <[r' := Note.set__duration (Note.duration now n') n']>
                    (note_heap s) !! r = Some n0 ∧ later_of n n0) as Hupd.
  { intros r n H. destruct (decide (r' = r)) as [->|Hne].
    - rewrite Hr' in H. injection H as <-. eexists. split.
      + apply list_lookup_insert_eq. by eapply lookup_lt_Some.
      + apply later_of_set__duration.
    - exists n. rewrite list_lookup_insert_ne by done.
      split; [done | apply later_of_refl]. }
  unfold Array_push, bind, Array_read. simpl.
  destruct (array_heap s !! _buffer s); simpl;
    by rewrite length_insert.
Qed.

Lemma react_note_later ρ σ r n :
  note_heap (st σ) !! r = Some n →
  ∃ n', note_heap (st (react ρ σ)) !! r = Some n' ∧ later_of n n'.
Proof.
  intros Hr. destruct ρ as [now [d|d]| |i o].
  - unfold react. cbn [st]. rewrite dispatch_KeyDown, _noteon_eq. simpl.
    exists n. split; [by apply lookup_app_l_Some | apply later_of_refl].
  - unfold react. cbn [st]. rewrite dispatch_KeyUp.
    by apply (_noteoff_frame now d (st σ)).
  - destruct (react_flush_frame Tick σ) as (_ & _ & -> & _); [done|].
    exists n. split; [done | apply later_of_refl].
  - destruct (react_flush_frame (Settle i o) σ) as (_ & _ & -> & _); [done|].
    exists n. split; [done | apply later_of_refl].
Qed.

(** X5.  Once a [Note] exists, no reaction changes its identifier, key,
    velocity or timestamp, and once its duration is frozen no reaction
    changes that either: the duration is set at most once. *)
Theorem note_fields_immutable σ σ' r n :
  rtc step σ σ' →
  note_heap (st σ) !! r = Some n →
  ∃ n', note_heap (st σ') !! r = Some n' ∧ later_of n n'.
Proof.
  intros Hsteps. revert n.
  induction Hsteps as [σ|σ1 σ2 σ3 [ρ ->] _ IH]; intros n Hr.
  - exists n. split; [done | apply later_of_refl].
  - destruct (react_note_later ρ σ1 r n Hr) as (n1 & Hr1 & Hl1).
    destruct (IH n1 Hr1) as (n' & Hr' & Hl').
    exists n'. split; [done | by eapply later_of_trans].
Qed.

Lemma note_fields_immutable_witness :
  rtc step (react (Sig 1000 (KeyDown (mkDetail 60 80 1000))) (System_init sample_ts))
           sample_system
  ∧ note_heap (st (react (Sig 1000 (KeyDown (mkDetail 60 80 1000)))
                     (System_init sample_ts))) !! 0%nat
    = Some (Note.mk "1700000000.123.0" 60 80 1000 None)
  ∧ ∃ n', note_heap (st sample_system) !! 0%nat = Some n'
      ∧ later_of (Note.mk "1700000000.123.0" 60 80 1000 None) n'.
Proof.
  assert (rtc step (react (Sig 1000 (KeyDown (mkDetail 60 80 1000)))
                      (System_init sample_ts)) sample_system) as Hsteps.
  { eapply rtc_l; [|apply rtc_refl].
    by exists (Sig 1501 (KeyUp (mkDetail 60 0 1500))). }
  split; [exact Hsteps|]. split; [reflexivity|].
  apply (note_fields_immutable _ _ 0%nat _ Hsteps). reflexivity.
Defined.

(** ** The registry and the log *)

(** X6.  In every state of the program, an entry of the registry maps its
    key to a [Note] of that key that is still playing and is in the log;
    so no [Note] is registered under two keys. *)
Theorem registry_entries_sound ts σ k r :
  reachable ts σ →
  notes (st σ) !! k = Some r →
  r ∈ log (st σ)
  ∧ (∃ n, note_heap (st σ) !! r = Some n ∧ Note.key n = k ∧ Note.playing n = true)
  ∧ ∀ k', notes (st σ) !! k' = Some r → k' = k.
Proof.
  intros Hwf%wf_reachable Hk.
  destruct (wf_notes _ Hwf _ _ Hk) as (Hlog & n & Hr & Hkey & Hp).
  split; [done|]. split; [by exists n|].
  intros k' Hk'. destruct (wf_notes _ Hwf _ _ Hk') as (_ & n' & Hr' & Hkey' & _).
  congruence.
Qed.

Lemma registry_entries_sound_witness :
  reachable sample_ts (react (Sig 1000 (KeyDown (mkDetail 60 80 1000)))
                         (System_init sample_ts))
  ∧ notes (st (react (Sig 1000 (KeyDown (mkDetail 60 80 1000)))
                 (System_init sample_ts))) !! 60 = Some 0%nat
  ∧ 0%nat ∈ log (st (react (Sig 1000 (KeyDown (mkDetail 60 80 1000)))
                       (System_init sample_ts))).
Proof.
  assert (reachable sample_ts (react (Sig 1000 (KeyDown (mkDetail 60 80 1000)))
                                 (System_init sample_ts))) as Hreach.
  { apply reachable_react, rtc_refl. }
  split; [exact Hreach|]. split; [reflexivity|].
  apply (registry_entries_sound sample_ts _ 60 0%nat Hreach). reflexivity.
Defined.

Lemma signals_of_app ρs1 ρs2 :
  signals_of (ρs1 ++ ρs2) = signals_of ρs1 ++ signals_of ρs2.
Proof.
  induction ρs1 as [|[now sig| |i o] ρs1 IH]; simpl; [done| |done..].
  by rewrite IH.
Qed.

Lemma presses_app sigs1 sigs2 :
  presses (sigs1 ++ sigs2) = presses sigs1 ++ presses sigs2.
Proof.
  induction sigs1 as [|[d|d] sigs1 IH]; simpl; [done| |done].
  by rewrite IH.
Qed.

Lemma records_react ρ σ r d : records (st σ) r d → records (st (react ρ σ)) r d.
Proof.
  intros (n & Hr & Hk & Hv & Ht).
  destruct (react_note_later ρ σ r n Hr) as (n' & Hr' & Hi' & Hk' & Hv' & Ht' & _).
  exists n'. split; [done|]. split; [congruence|]. split; congruence.
Qed.

Lemma log_react ρ σ :
  log (st σ) = seq 0 (length (note_heap (st σ))) →
  log (st (react ρ σ)) = seq 0 (length (note_heap (st (react ρ σ)))).
Proof.
  intros H. destruct ρ as [now [d|d]| |i o].
  - unfold react. cbn [st]. rewrite dispatch_KeyDown, _noteon_eq. simpl.
    rewrite length_app, H. simpl. by rewrite Nat.add_1_r, seq_S.
  - unfold react. cbn [st]. rewrite dispatch_KeyUp.
    destruct (_noteoff_frame now d (st σ)) as (_ & _ & -> & -> & _). done.
  - destruct (react_flush_frame Tick σ) as (_ & _ & -> & _ & -> & _); done.
  - destruct (react_flush_frame (Settle i o) σ) as (_ & _ & -> & _ & -> & _); done.
Qed.

(** X7.  The log is the record of the presses: after any reactions of a new
    [MIDI] object it lists every [Note] ever constructed, once each and in
    the order of construction, one for every [KeyDown] handled, released
    or not, each with the key, velocity and timestamp of its [KeyDown]. *)
Theorem log_records_presses ts ρs :
  let σ := react_all ρs (System_init ts) in
  log (st σ) = seq 0 (length (note_heap (st σ)))
  ∧ Forall2 (records (st σ)) (log (st σ)) (presses (signals_of ρs)).
Proof.
  induction ρs as [|ρ ρs IH] using rev_ind; simpl.
  - split; [done | constructor].
  - rewrite react_all_app. simpl.
    set (σ := react_all ρs (System_init ts)) in *.
    destruct IH as [Hlog Hrec].
    split; [by apply log_react|].
    rewrite signals_of_app, presses_app.
    assert (Forall2 (records (st (react ρ σ))) (log (st σ)) (presses (signals_of ρs)))
      as Hold.
    { eapply Forall2_impl; [exact Hrec|]. intros r d. apply records_react. }
    destruct ρ as [now [d|d]| |i o].
    + unfold react in *. cbn [st] in *.
      rewrite dispatch_KeyDown, _noteon_eq in *. simpl in *.
      apply Forall2_app; [done|]. constructor; [|constructor].
      unfold records. simpl. eexists. split.
      { rewrite lookup_app_r by lia. by rewrite Nat.sub_diag. }
      done.
    + assert (log (st (react (Sig now (KeyUp d)) σ)) = log (st σ)) as ->.
      { unfold react. cbn [st]. rewrite dispatch_KeyUp.
        by destruct (_noteoff_frame now d (st σ)) as (_ & _ & -> & _). }
      cbn [signals_of presses]. by rewrite (right_id_L [] (++)).
    + assert (log (st (react Tick σ)) = log (st σ)) as ->.
      { by destruct (react_flush_frame Tick σ) as (_ & _ & _ & _ & -> & _). }
      cbn [signals_of presses]. by rewrite (right_id_L [] (++)).
    + assert (log (st (react (Settle i o) σ)) = log (st σ)) as ->.
      { by destruct (react_flush_frame (Settle i o) σ) as (_ & _ & _ & _ & -> & _). }
      cbn [signals_of presses]. by rewrite (right_id_L [] (++)).
Qed.

Lemma log_reachable ts σ :
  reachable ts σ → log (st σ) = seq 0 (length (note_heap (st σ))).
Proof.
  apply (reachable_ind ts (λ σ, log (st σ) = seq 0 (length (note_heap (st σ))))).
  - done.
  - intros ρ σ' _ H. by apply log_react.
Qed.

(** ** Identifiers *)

Lemma incr_min (len : Z) :
  Note.incr (Z.min len (2 ^ 53)) = Z.min (len + 1) (2 ^ 53).
Proof.
  unfold Note.incr. generalize (2 ^ 53). intros B.
  destruct (Z.ltb_spec (Z.min len B) B); lia.
Qed.

Lemma ids_reachable ts σ :
  reachable ts σ →
  _TIMESTAMP (st σ) = ts
  ∧ _no (st σ) = Z.min (Z.of_nat (length (note_heap (st σ)))) (2 ^ 53)
  ∧ ∀ i n, note_heap (st σ) !! i = Some n →
      Note._id n = ts +:+ "." +:+ pretty (Z.min (Z.of_nat i) (2 ^ 53)).
Proof.
  apply (reachable_ind ts (λ σ,
    _TIMESTAMP (st σ) = ts
    ∧ _no (st σ) = Z.min (Z.of_nat (length (note_heap (st σ)))) (2 ^ 53)
    ∧ ∀ i n, note_heap (st σ) !! i = Some n →
        Note._id n = ts +:+ "." +:+ pretty (Z.min (Z.of_nat i) (2 ^ 53)))).
  - split; [done|]. split; [done|]. intros i n H. by destruct i.
  - intros ρ σ' _ (Hts & Hno & Hid).
    assert (∀ s', _TIMESTAMP s' = _TIMESTAMP (st σ') → _no s' = _no (st σ') →
              length (note_heap s') = length (note_heap (st σ')) →
              (∀ r n, note_heap (st σ') !! r = Some n →
                 ∃ n', note_heap s' !! r = Some n' ∧ later_of n n') →
              _TIMESTAMP s' = ts
              ∧ _no s' = Z.min (Z.of_nat (length (note_heap s'))) (2 ^ 53)
              ∧ ∀ i n, note_heap s' !! i = Some n →
                  Note._id n = ts +:+ "." +:+ pretty (Z.min (Z.of_nat i) (2 ^ 53)))
      as Hstatic.
    { intros s' H1 H2 H3 H4. split; [congruence|]. split; [congruence|].
      intros i n' Hi.
      assert (is_Some (note_heap (st σ') !! i)) as [n Hn].
      { apply lookup_lt_is_Some. rewrite <- H3. by eapply lookup_lt_Some. }
      destruct (H4 i n Hn) as (n'' & Hn'' & Hid'' & _).
      rewrite Hi in Hn''. injection Hn'' as <-. rewrite Hid''. by apply Hid. }
    destruct ρ as [now [d|d]| |i o].
    + unfold react. cbn [st]. rewrite dispatch_KeyDown, _noteon_eq. simpl.
      split; [done|]. split.
      * rewrite Hno, length_app. simpl. rewrite incr_min. f_equal. lia.
      * intros i n Hi. apply lookup_app_Some in Hi as [Hi|[Hge Hi]].
        { by apply Hid. }
        destruct (i - length (note_heap (st σ')))%nat as [|j] eqn:Hj; [|by destruct j].
        injection Hi as <-. simpl. rewrite Hts, Hno.
        do 3 f_equal. lia.
    + unfold react. cbn [st]. rewrite dispatch_KeyUp.
      destruct (_noteoff_frame now d (st σ')) as (H1 & H2 & _ & H3 & H4).
      by apply Hstatic.
    + destruct (react_flush_frame Tick σ') as (H1 & H2 & H3 & _); [done|].
      apply Hstatic; [done|done|by rewrite H3|].
      intros r n Hr. exists n. rewrite H3. split; [done | apply later_of_refl].
    + destruct (react_flush_frame (Settle i o) σ') as (H1 & H2 & H3 & _); [done|].
      apply Hstatic; [done|done|by rewrite H3|].
      intros r n Hr. exists n. rewrite H3. split; [done | apply later_of_refl].
Qed.

(** X8.  The identifier of the [i]-th [Note] constructed is the rendering
    of [_TIMESTAMP], a dot and [i], and the identifiers of two [Note]s are
    equal only if they are the same [Note]; this for the first 2^53 + 1
    notes of a run, after which the counter of doubles no longer moves. *)
Theorem ids_unique ts σ i j n m :
  reachable ts σ →
  note_heap (st σ) !! i = Some n →
  note_heap (st σ) !! j = Some m →
  Z.of_nat i ≤ 2 ^ 53 →
  Z.of_nat j ≤ 2 ^ 53 →
  Note._id n = ts +:+ "." +:+ pretty (Z.of_nat i)
  ∧ (Note._id n = Note._id m ↔ i = j).
Proof.
  intros Hreach Hi Hj Hbi Hbj.
  destruct (ids_reachable ts σ Hreach) as (_ & _ & Hid).
  pose proof (Hid i n Hi) as Hn. pose proof (Hid j m Hj) as Hm.
  rewrite Z.min_l in Hn, Hm by done.
  split; [done|]. split.
  - rewrite Hn, Hm. intros H.
    apply (String.app_inj ts), (String.app_inj ".") in H.
    apply (inj pretty) in H. lia.
  - intros ->. congruence.
Qed.

Lemma ids_unique_witness :
  reachable sample_ts (react_all retry_reactions (System_init sample_ts))
  ∧ (Note._id (Note.mk "1700000000.123.0" 60 80 1000 (Some 500))
     = Note._id (Note.mk "1700000000.123.2" 64 90 2000 (Some 400))
     ↔ 0%nat = 2%nat).
Proof.
  assert (reachable sample_ts (react_all retry_reactions (System_init sample_ts)))
    as Hreach by apply reachable_react_all, rtc_refl.
  split; [exact Hreach|].
  apply (ids_unique sample_ts _ 0%nat 2%nat _ _ Hreach);
    [reflexivity | reflexivity | simpl; lia | simpl; lia].
Defined.

(** ** Signals out of order *)

(** X9.  A second release of a key, with no press in between, changes
    nothing: its listener throws before it touches the state, so no second
    entry reaches the buffer and no notification is sent. *)
Theorem second_release_changes_nothing ts σ now1 now2 d1 d2 :
  reachable ts σ →
  d_key d2 = d_key d1 →
  listener now2 (KeyUp d2) (dispatch now1 (KeyUp d1) (st σ))
  = (Throw (TypeError "duration"), dispatch now1 (KeyUp d1) (st σ)).
Proof.
  intros Hwf%wf_reachable Hk. unfold listener.
  apply _noteoff_inactive. rewrite Hk.
  rewrite (dispatch_notes now1 (KeyUp d1) σ (d_key d1) Hwf).
  by rewrite decide_True.
Qed.

Lemma second_release_changes_nothing_witness :
  reachable sample_ts sample_system
  ∧ d_key (mkDetail 60 0 1600) = d_key (mkDetail 60 0 1550)
  ∧ dispatch 1600 (KeyUp (mkDetail 60 0 1600))
      (dispatch 1550 (KeyUp (mkDetail 60 0 1550)) (st sample_system))
    = dispatch 1550 (KeyUp (mkDetail 60 0 1550)) (st sample_system).
Proof.
  split; [apply sample_reachable|]. split; [reflexivity|].
  unfold dispatch at 1.
  by rewrite (second_release_changes_nothing sample_ts sample_system 1550 1600
                (mkDetail 60 0 1550) (mkDetail 60 0 1600) sample_reachable eq_refl).
Defined.

Lemma elem_of_queued σ r :
  r ∈ queued σ →
  ∃ a, (a = _buffer (st σ) ∨ a ∈ inflight σ) ∧ r ∈ contents (st σ) a.
Proof.
  unfold queued. intros [H|H]%elem_of_app.
  - apply list_elem_of_In, in_flat_map in H as (a & Ha & Hr).
    exists a. split; [right; by apply list_elem_of_In | by apply list_elem_of_In].
  - exists (_buffer (st σ)). split; [by left | done].
Qed.

Lemma unregistered_react ρ σ r n :
  wf σ →
  note_heap (st σ) !! r = Some n →
  (∀ k, notes (st σ) !! k ≠ Some r) →
  note_heap (st (react ρ σ)) !! r = Some n
  ∧ ∀ k, notes (st (react ρ σ)) !! k ≠ Some r.
Proof.
  intros Hwf Hr Hun. destruct ρ as [now [d|d]| |i o].
  - unfold react. cbn [st]. rewrite dispatch_KeyDown, _noteon_eq. simpl. split.
    + by apply lookup_app_l_Some.
    + intros k Hk. apply lookup_insert_Some in Hk as [[_ <-]|[_ Hk]].
      * apply lookup_lt_Some in Hr. lia.
      * by apply (Hun k).
  - unfold react. cbn [st]. rewrite dispatch_KeyUp.
    destruct (notes (st σ) !! d_key d) as [r'|] eqn:Hk.
    2:{ by rewrite _noteoff_inactive. }
    destruct (wf_notes _ Hwf _ _ Hk) as (_ & n' & Hr' & _).
    destruct (wf_buffer _ Hwf) as [l Hl].
    rewrite (_noteoff_active now d _ r' n' l) by done. simpl. split.
    + rewrite list_lookup_insert_ne; [done|]. intros ->. by apply (Hun (d_key d)).
    + intros k Hk'. apply lookup_delete_Some in Hk' as [_ Hk']. by apply (Hun k).
  - destruct (react_flush_frame Tick σ) as (_ & _ & -> & -> & _); done.
  - destruct (react_flush_frame (Settle i o) σ) as (_ & _ & -> & -> & _); done.
Qed.

Lemma unregistered_react_all ρs σ r n :
  wf σ →
  note_heap (st σ) !! r = Some n →
  (∀ k, notes (st σ) !! k ≠ Some r) →
  note_heap (st (react_all ρs σ)) !! r = Some n
  ∧ ∀ k, notes (st (react_all ρs σ)) !! k ≠ Some r.
Proof.
  revert σ. induction ρs as [|ρ ρs IH]; intros σ Hwf Hr Hun; simpl; [done|].
  destruct (unregistered_react ρ σ r n Hwf Hr Hun) as [Hr' Hun'].
  apply IH; [by apply wf_react | done | done].
Qed.

(** X10.  A press of a key that is already held overwrites the registry
    entry and orphans the [Note] of the first press: whatever happens
    later, that [Note] stays in the log and keeps playing; it is never in
    the registry again, never frozen, and never queued for delivery. *)
Theorem repeated_press_orphans ts σ d0 d1 now0 now1 mid later :
  reachable ts σ →
  d_key d1 = d_key d0 →
  Forall (not_for (d_key d0)) mid →
  let r0 := length (note_heap (st σ)) in
  let σ' := react_all (Sig now0 (KeyDown d0) :: mid
                       ++ Sig now1 (KeyDown d1) :: later) σ in
  r0 ∈ log (st σ')
  ∧ (∃ n, note_heap (st σ') !! r0 = Some n ∧ Note.playing n = true)
  ∧ (∀ k, notes (st σ') !! k ≠ Some r0)
  ∧ r0 ∉ queued σ'.
Proof.
  intros Hreach Hk Hmid r0 σ'.
  pose proof (wf_reachable _ _ Hreach) as Hwf.
  set (σ1 := react (Sig now0 (KeyDown d0)) σ).
  set (σ2 := react_all mid σ1).
  set (σ3 := react (Sig now1 (KeyDown d1)) σ2).
  assert (σ' = react_all later σ3) as Hσ'.
  { unfold σ', σ3, σ2, σ1. simpl. by rewrite react_all_app. }
  pose proof (wf_react (Sig now0 (KeyDown d0)) σ Hwf) as Hwf1. fold σ1 in Hwf1.
  pose proof (wf_react_all mid σ1 Hwf1) as Hwf2. fold σ2 in Hwf2.
  pose proof (wf_react (Sig now1 (KeyDown d1)) σ2 Hwf2) as Hwf3. fold σ3 in Hwf3.
  set (n0 := Note.mk (_TIMESTAMP (st σ) +:+ "." +:+ pretty (_no (st σ)))
               (d_key d0) (d_velocity d0) (d_timestamp d0) None).
  assert (notes (st σ1) !! d_key d0 = Some r0 ∧ note_heap (st σ1) !! r0 = Some n0)
    as [Hk1 Hr1].
  { unfold σ1, react. cbn [st]. rewrite dispatch_KeyDown, _noteon_eq. simpl. split.
    - by rewrite lookup_insert_eq.
    - rewrite lookup_app_r by (unfold r0; lia). unfold r0.
      by rewrite Nat.sub_diag. }
  destruct (react_all_other_keys mid σ1 (d_key d0) r0 n0 Hwf1 Hk1 Hr1 Hmid)
    as [Hk2 Hr2]. fold σ2 in Hk2, Hr2.
  assert (note_heap (st σ3) !! r0 = Some n0
          ∧ ∀ k, notes (st σ3) !! k ≠ Some r0) as [Hr3 Hun3].
  { unfold σ3, react. cbn [st]. rewrite dispatch_KeyDown, _noteon_eq. simpl. split.
    - by apply lookup_app_l_Some.
    - intros k Hk3. apply lookup_insert_Some in Hk3 as [[_ Heq]|[Hne Hk3]].
      + apply lookup_lt_Some in Hr2. lia.
      + destruct (wf_notes _ Hwf2 _ _ Hk3) as (_ & n & Hn & Hkey & _).
        rewrite Hr2 in Hn. injection Hn as <-. simpl in Hkey. congruence. }
  destruct (unregistered_react_all later σ3 r0 n0 Hwf3 Hr3 Hun3) as [Hr' Hun'].
  rewrite <- Hσ' in Hr', Hun'.
  assert (reachable ts σ') as Hreach'.
  { unfold σ'. by apply reachable_react_all. }
  split.
  { rewrite (log_reachable ts σ' Hreach'). apply elem_of_seq.
    apply lookup_lt_Some in Hr'. lia. }
  split; [by exists n0|]. split; [done|].
  intros Hq. apply elem_of_queued in Hq as (a & Ha & Hin).
  destruct (wf_queued _ (wf_reachable _ _ Hreach') a r0 Ha Hin)
    as [(n & Hn & Hp) _].
  rewrite Hr' in Hn. by injection Hn as <-.
Qed.

Lemma repeated_press_orphans_witness :
  reachable sample_ts (System_init sample_ts)
  ∧ d_key (mkDetail 60 90 1200) = d_key (mkDetail 60 80 1000)
  ∧ Forall (not_for (d_key (mkDetail 60 80 1000))) [Tick]
  ∧ ∃ n, note_heap
           (st (react_all
                  (Sig 1000 (KeyDown (mkDetail 60 80 1000)) :: [Tick]
                   ++ Sig 1200 (KeyDown (mkDetail 60 90 1200))
                      :: [Sig 1501 (KeyUp (mkDetail 60 0 1500))])
                  (System_init sample_ts))) !! 0%nat = Some n
       ∧ Note.playing n = true.
Proof.
  split; [apply rtc_refl|]. split; [reflexivity|].
  split; [by repeat constructor|].
  destruct (repeated_press_orphans sample_ts (System_init sample_ts)
              (mkDetail 60 80 1000) (mkDetail 60 90 1200) 1000 1200 [Tick]
              [Sig 1501 (KeyUp (mkDetail 60 0 1500))])
    as (_ & H & _).
  - apply rtc_refl.
  - reflexivity.
  - by repeat constructor.
  - exact H.
Defined.

(** ** Accounting for completed notes *)

Lemma flat_map_contents_ext s s' (l : list nat) :
  (∀ a, a ∈ l → contents s' a = contents s a) →
  flat_map (contents s') l = flat_map (contents s) l.
Proof.
  induction l as [|a l IH]; intros H; simpl; [done|].
  rewrite (H a) by apply list_elem_of_here.
  rewrite IH; [done|]. intros a' Ha'. by apply H, list_elem_of_further.
Qed.

Lemma flat_map_delete (f : nat → list nat) (l : list nat) i b :
  l !! i = Some b →
  flat_map f l ≡ₚ f b ++ flat_map f (delete i l).
Proof.
  intros H. rewrite (delete_Permutation l i b H) at 1. done.
Qed.

Lemma contents_grown s s' a x :
  array_heap s' = array_heap s ++ [x] →
  is_Some (array_heap s !! a) →
  contents s' a = contents s a.
Proof.
  intros H [l Hl]. unfold contents. by rewrite H, (lookup_app_l_Some _ _ _ _ Hl), Hl.
Qed.

(** One reaction: what it delivers and drops, with what is queued after
    it, is what was queued before it with what it completes. *)
Lemma account_react ρ σ :
  wf σ →
  delivers ρ σ ++ drops ρ σ ++ queued (react ρ σ) ≡ₚ queued σ ++ completes ρ σ.
Proof.
  intros Hwf. destruct (wf_buffer _ Hwf) as [l Hl].
  destruct ρ as [now [d|d]| |i o].
  - unfold react. cbn [st]. rewrite dispatch_KeyDown, _noteon_eq.
    simpl. by rewrite (right_id_L [] (++)).
  - unfold react, delivers, drops, completes. cbn [st]. rewrite dispatch_KeyUp.
    destruct (notes (st σ) !! d_key d) as [r|] eqn:Hk.
    2:{ rewrite _noteoff_inactive by done. simpl.
        rewrite (right_id_L [] (++)). by destruct σ. }
    destruct (wf_notes _ Hwf _ _ Hk) as (_ & n & Hr & _).
    rewrite (_noteoff_active now d _ r n l) by done.
    unfold queued, pending. simpl. rewrite Hl. simpl.
    rewrite list_lookup_insert_eq by (by eapply lookup_lt_Some). simpl.
    rewrite (flat_map_contents_ext (st σ)).
    + by rewrite !(assoc_L (++)).
    + intros a Ha. destruct (wf_inflight _ Hwf a Ha) as [_ Hne].
      unfold contents. simpl. by rewrite list_lookup_insert_ne.
  - unfold react, delivers, drops, completes. destruct l as [|r l].
    { rewrite (flush_start_empty _ Hl). simpl. rewrite (right_id_L [] (++)).
      by destruct σ. }
    rewrite (flush_start_nonempty _ _ Hl) by done.
    unfold queued, pending. simpl. rewrite Hl. simpl.
    rewrite flat_map_app. simpl.
    rewrite lookup_app_r by lia. rewrite Nat.sub_diag. simpl.
    rewrite !(right_id_L [] (++)).
    rewrite (contents_grown (st σ) _ _ []) by (done || by eexists).
    unfold contents at 2. rewrite Hl. simpl.
    rewrite (flat_map_contents_ext (st σ)); [done|].
    intros a Ha. destruct (wf_inflight _ Hwf a Ha) as [Hs _].
    by apply (contents_grown (st σ) _ _ []).
  - unfold react, delivers, drops, completes, batch_of.
    destruct (inflight σ !! i) as [b|] eqn:Hi.
    2:{ simpl. destruct o as [status|]; [destruct (ok status)|];
          simpl; by rewrite ?(right_id_L [] (++)). }
    assert (b ∈ inflight σ) as Hin by (by eapply list_elem_of_lookup_2).
    destruct (wf_inflight _ Hwf b Hin) as [[old Hold] _].
    pose proof (flat_map_delete (contents (st σ)) (inflight σ) i b Hi) as Hperm.
    destruct o as [status|].
    + destruct (ok status) eqn:Hok.
      * rewrite flush_resume_ok by done. unfold queued. simpl.
        rewrite Hperm. solve_Permutation.
      * rewrite (flush_resume_not_ok _ _ _ old l) by done.
        unfold queued, pending. simpl. rewrite Hl. simpl.
        rewrite lookup_app_r by lia. rewrite Nat.sub_diag. simpl.
        rewrite (right_id_L [] (++)).
        rewrite (flat_map_contents_ext (st σ)).
        { rewrite Hperm. unfold contents at 2. rewrite Hold. simpl.
          solve_Permutation. }
        intros a Ha%list_elem_of_delete_inv.
        destruct (wf_inflight _ Hwf a Ha) as [Hs _].
        by apply (contents_grown (st σ) _ _ (old ++ l)).
    + rewrite flush_resume_rejected. unfold queued. simpl.
      rewrite Hperm. solve_Permutation.
Qed.

Lemma account_react_all ρs σ :
  wf σ →
  collect delivers ρs σ ++ collect drops ρs σ ++ queued (react_all ρs σ)
  ≡ₚ queued σ ++ collect completes ρs σ.
Proof.
  revert σ. induction ρs as [|ρ ρs IH]; intros σ Hwf; simpl.
  - by rewrite (right_id_L [] (++)).
  - pose proof (IH _ (wf_react ρ σ Hwf)) as H1.
    pose proof (account_react ρ σ Hwf) as H2.
    set (σ1 := react ρ σ) in *.
    assert ((delivers ρ σ ++ collect delivers ρs σ1)
              ++ (drops ρ σ ++ collect drops ρs σ1) ++ queued (react_all ρs σ1)
            ≡ₚ (delivers ρ σ ++ drops ρ σ)
              ++ (collect delivers ρs σ1 ++ collect drops ρs σ1
                  ++ queued (react_all ρs σ1))) as -> by solve_Permutation.
    rewrite H1.
    assert ((delivers ρ σ ++ drops ρ σ) ++ queued σ1 ++ collect completes ρs σ1
            ≡ₚ (delivers ρ σ ++ drops ρ σ ++ queued σ1) ++ collect completes ρs σ1)
      as -> by solve_Permutation.
    rewrite H2. solve_Permutation.
Qed.

(** A note that some later reaction completes is playing now, or is not
    constructed yet; and none is completed twice. *)
Lemma completes_fresh ρs σ :
  wf σ →
  NoDup (collect completes ρs σ)
  ∧ ∀ r, r ∈ collect completes ρs σ →
      (∃ n, note_heap (st σ) !! r = Some n ∧ Note.playing n = true)
      ∨ (length (note_heap (st σ)) ≤ r)%nat.
Proof.
  revert σ. induction ρs as [|ρ ρs IH]; intros σ Hwf; simpl.
  - split; [constructor|]. intros r H. by apply elem_of_nil in H.
  - destruct (IH _ (wf_react ρ σ Hwf)) as [Hnd Hfresh].
    assert (∀ r, r ∈ completes ρ σ →
              (∃ n, note_heap (st σ) !! r = Some n ∧ Note.playing n = true)
              ∧ frozen (st (react ρ σ)) r) as Hnow.
    { intros r Hr. destruct ρ as [now [d|d]| |i o];
        try (by apply elem_of_nil in Hr).
      simpl in Hr. destruct (notes (st σ) !! d_key d) as [r'|] eqn:Hk;
        [|by apply elem_of_nil in Hr].
      apply list_elem_of_singleton in Hr as ->.
      destruct (wf_notes _ Hwf _ _ Hk) as (_ & n & Hr & _ & Hp).
      destruct (wf_buffer _ Hwf) as [l Hl].
      split; [by exists n|].
      unfold react, frozen. cbn [st]. rewrite dispatch_KeyUp.
      rewrite (_noteoff_active now d _ r' n l) by done. simpl.
      eexists. split.
      { apply list_lookup_insert_eq. by eapply lookup_lt_Some. }
      done. }
    assert (∀ r, r ∈ collect completes ρs (react ρ σ) →
              (∃ n, note_heap (st σ) !! r = Some n ∧ Note.playing n = true)
              ∨ (length (note_heap (st σ)) ≤ r)%nat) as Hlater.
    { intros r Hr.
      destruct (decide (r < length (note_heap (st σ)))%nat) as [Hlt|]; [|right; lia].
      left. apply lookup_lt_is_Some in Hlt as [n Hn]. exists n. split; [done|].
      destruct (react_note_later ρ σ r n Hn) as (n' & Hn' & _ & _ & _ & _ & Hd).
      destruct (Hfresh r Hr) as [(n1 & Hn1 & Hp1)|Hge].
      - rewrite Hn' in Hn1. injection Hn1 as <-.
        destruct n as [? ? ? ? [d|]]; [|done].
        specialize (Hd d eq_refl). destruct n' as [? ? ? ? [d'|]]; done.
      - apply lookup_lt_Some in Hn'. lia. }
    split.
    + apply NoDup_app. split; [|split; [|done]].
      * destruct ρ as [now [d|d]| |i o]; simpl; try constructor.
        destruct (notes (st σ) !! d_key d); [apply NoDup_singleton | constructor].
      * intros r Hr1 Hr2. destruct (Hnow r Hr1) as [_ (n & Hn & Hp)].
        destruct (Hfresh r Hr2) as [(n1 & Hn1 & Hp1)|Hge].
        -- rewrite Hn in Hn1. injection Hn1 as <-. congruence.
        -- apply lookup_lt_Some in Hn. lia.
    + intros r [Hr|Hr]%elem_of_app.
      * left. by apply Hnow.
      * by apply Hlater.
Qed.

Lemma collect_drops_nil ρs σ :
  (∀ i, Settle i Rejected ∉ ρs) → collect drops ρs σ = [].
Proof.
  revert σ. induction ρs as [|ρ ρs IH]; intros σ H; simpl; [done|].
  rewrite IH by (intros i Hi; by apply (H i), list_elem_of_further).
  destruct ρ as [now sig| |i [status|]]; simpl; try done.
  destruct (H i). apply list_elem_of_here.
Qed.

(** X11.  Every completed note is accounted for exactly once.  After any
    reactions of a new [MIDI] object, the notes completed so far (a
    [KeyUp] found them in the registry) are, each once, those delivered in
    a batch that the sink accepted, those of a batch whose [fetch] was
    rejected, and those still queued, pending or in flight; no note is
    completed twice.  If no [fetch] was rejected, every completed note is
    delivered or still queued. *)
Theorem completed_notes_accounted ts ρs :
  let σ0 := System_init ts in
  NoDup (collect completes ρs σ0)
  ∧ collect delivers ρs σ0 ++ collect drops ρs σ0 ++ queued (react_all ρs σ0)
    ≡ₚ collect completes ρs σ0
  ∧ ((∀ i, Settle i Rejected ∉ ρs) →
     collect delivers ρs σ0 ++ queued (react_all ρs σ0)
     ≡ₚ collect completes ρs σ0).
Proof.
  intros σ0.
  destruct (completes_fresh ρs σ0 (wf_init ts)) as [Hnd _].
  pose proof (account_react_all ρs σ0 (wf_init ts)) as Hacc.
  change (queued σ0) with (@nil nat) in Hacc. simpl in Hacc.
  split; [done|]. split; [done|].
  intros Hno. rewrite (collect_drops_nil ρs σ0 Hno) in Hacc. done.
Qed.

Lemma reachable_react_all_inv ts σ :
  reachable ts σ → ∃ ρs, σ = react_all ρs (System_init ts).
Proof.
  apply (reachable_ind ts (λ σ, ∃ ρs, σ = react_all ρs (System_init ts))).
  - by exists [].
  - intros ρ σ' _ [ρs ->]. exists (ρs ++ [ρ]). by rewrite react_all_app.
Qed.

(** X12.  No [Note] is queued twice: in every state of the program the
    batches of the sends in flight and the pending array together hold
    each [Note] at most once, through every detach and every re-merge. *)
Theorem queued_NoDup ts σ :
  reachable ts σ → NoDup (queued σ).
Proof.
  intros [ρs ->]%reachable_react_all_inv.
  destruct (completes_fresh ρs (System_init ts) (wf_init ts)) as [Hnd _].
  pose proof (account_react_all ρs (System_init ts) (wf_init ts)) as Hacc.
  change (queued (System_init ts)) with (@nil nat) in Hacc. simpl in Hacc.
  rewrite <- Hacc in Hnd.
  apply NoDup_app in Hnd as (_ & _ & Hnd).
  by apply NoDup_app in Hnd as (_ & _ & Hnd).
Qed.

Lemma queued_NoDup_witness :
  reachable sample_ts (react_all retry_reactions (System_init sample_ts))
  ∧ NoDup (queued (react_all retry_reactions (System_init sample_ts))).
Proof.
  assert (reachable sample_ts (react_all retry_reactions (System_init sample_ts)))
    as Hreach by apply reachable_react_all, rtc_refl.
  split; [exact Hreach|].
  apply (queued_NoDup sample_ts _ Hreach).
Defined.

(** ** A refused send *)

Lemma react_all_signals sigs σ :
  react_all ((λ p, Sig (fst p) (snd p)) <$> sigs) σ
  = mkSystem (run sigs (st σ)) (inflight σ).
Proof.
  revert σ. induction sigs as [|[now sig] sigs IH]; intros σ; simpl.
  - by destruct σ.
  - by rewrite IH.
Qed.

Lemma delete_last_app (l : list nat) b : delete (length l) (l ++ [b]) = l.
Proof. induction l as [|a l IH]; simpl; [done | by rewrite IH]. Qed.

(** X13.  A send that the sink refuses is invisible afterwards.  Take a
    tick on a non-empty pending buffer, any signals while the send is in
    flight, and a response with a status outside 200..299: the pending
    buffer then holds exactly what it would hold had the timer not fired,
    the batch first and the notes completed in flight after it, in order;
    the registry, the log, the notes and the notifications are the same
    too, and the sends in flight are those from before the tick. *)
Theorem refused_send_invisible ts σ sigs status :
  reachable ts σ →
  pending (st σ) ≠ [] →
  ok status = false →
  let σ' := react_all (Tick :: ((λ p, Sig (fst p) (snd p)) <$> sigs)
                       ++ [Settle (length (inflight σ)) (Fulfilled status)]) σ in
  pending (st σ') = pending (run sigs (st σ))
  ∧ detached [] (run sigs (st σ)) (st σ')
  ∧ inflight σ' = inflight σ.
Proof.
  intros Hwf%wf_reachable Hne Hok σ'. unfold pending in Hne.
  destruct (array_heap (st σ) !! _buffer (st σ)) as [batch|] eqn:Hb; [|done].
  simpl in Hne. pose proof (lookup_lt_Some _ _ _ Hb) as Hlt.
  assert (σ' = react (Settle (length (inflight σ)) (Fulfilled status))
                 (mkSystem (run sigs (st (react Tick σ))) (inflight (react Tick σ))))
    as Hσ'.
  { unfold σ'. simpl. by rewrite react_all_app, react_all_signals. }
  assert (react Tick σ
          = mkSystem
              {| _TIMESTAMP := _TIMESTAMP (st σ); _no := _no (st σ);
                 note_heap := note_heap (st σ);
                 array_heap := array_heap (st σ) ++ [[]];
                 notes := notes (st σ); log := log (st σ);
                 _buffer := length (array_heap (st σ));
                 emitted := emitted (st σ) |}
              (inflight σ ++ [_buffer (st σ)])) as Htick.
  { unfold react. by rewrite (flush_start_nonempty _ _ Hb). }
  rewrite Htick in Hσ'. cbn [st inflight] in Hσ'.
  set (s1 := mkState _ _ _ _ _ _ _ _) in Hσ'.
  assert (detached batch (st σ) s1) as Hdet.
  { repeat (split; [reflexivity|]). exists []. split.
    - simpl. rewrite lookup_app_r by lia. by rewrite Nat.sub_diag.
    - by rewrite (right_id_L [] (++)). }
  destruct (detached_run batch sigs (st σ) s1 Hdet)
    as (H1 & H2 & H3 & H4 & H5 & H6 & l & Hl1 & Hl).
  assert (array_heap (run sigs s1) !! _buffer (st σ) = Some batch) as Hold.
  { rewrite run_array_ne by (simpl; lia). simpl. by apply lookup_app_l_Some. }
  unfold react in Hσ'. cbn [st inflight] in Hσ'.
  rewrite lookup_app_r in Hσ' by lia. rewrite Nat.sub_diag in Hσ'. simpl in Hσ'.
  rewrite Hok in Hσ'. simpl in Hσ'.
  unfold bind, Array_read, get__buffer in Hσ'. rewrite Hold in Hσ'. simpl in Hσ'.
  rewrite Hl1 in Hσ'. simpl in Hσ'. rewrite delete_last_app in Hσ'.
  rewrite Hσ'. unfold pending. cbn [st array_heap _buffer inflight]. rewrite Hl.
  assert ((array_heap (run sigs s1) ++ [batch ++ l])
            !! length (array_heap (run sigs s1)) = Some (batch ++ l)) as Hnew.
  { rewrite lookup_app_r by lia. by rewrite Nat.sub_diag. }
  rewrite Hnew. split; [done|]. split; [|done].
  repeat (split; [done|]). by exists (batch ++ l).
Qed.

Lemma refused_send_invisible_witness :
  reachable sample_ts sample_system
  ∧ pending (st sample_system) ≠ []
  ∧ ok 503 = false
  ∧ pending (st (react_all
                   (Tick :: ((λ p, Sig (fst p) (snd p))
                               <$> [(2000, KeyDown (mkDetail 64 90 2000));
                                    (2400, KeyUp (mkDetail 64 0 2400))])
                    ++ [Settle (length (inflight sample_system)) (Fulfilled 503)])
                   sample_system))
    = pending (run [(2000, KeyDown (mkDetail 64 90 2000));
                    (2400, KeyUp (mkDetail 64 0 2400))] (st sample_system)).
Proof.
  assert (pending (st sample_system) ≠ []) as Hne by (vm_compute; discriminate).
  split; [apply sample_reachable|]. split; [exact Hne|]. split; [reflexivity|].
  apply (refused_send_invisible sample_ts sample_system
           [(2000, KeyDown (mkDetail 64 90 2000)); (2400, KeyUp (mkDetail 64 0 2400))]
           503 sample_reachable Hne eq_refl).
Defined.

(** ** The body of a request *)

Lemma String_length_append s1 s2 :
  String.length (s1 +:+ s2) = (String.length s1 + String.length s2)%nat.
Proof. induction s1 as [|c s1 IH]; simpl; [done | by rewrite IH]. Qed.

Lemma Array_toString_length l :
  String.length (Array_toString l) = (16 * length l - 1)%nat.
Proof.
  induction l as [|r [|r' l] IH]; [done|done|].
  change (Array_toString (r :: r' :: l))
    with ("[object Object]," +:+ Array_toString (r' :: l)).
  rewrite String_length_append, IH. cbn [length String.length]. lia.
Qed.

Lemma Array_toString_same_length l1 l2 :
  length l1 = length l2 → Array_toString l1 = Array_toString l2.
Proof.
  revert l2. induction l1 as [|r1 [|r1' l1] IH]; intros [|r2 [|r2' l2]] H;
    try done.
  change (Array_toString (r1 :: r1' :: l1))
    with ("[object Object]," +:+ Array_toString (r1' :: l1)).
  change (Array_toString (r2 :: r2' :: l2))
    with ("[object Object]," +:+ Array_toString (r2' :: l2)).
  f_equal. apply IH. simpl in H. simpl. lia.
Qed.

Lemma flush_start_sends s req buffer s' :
  flush_start s = (Normal (Some (req, buffer)), s') →
  pending s ≠ []
  ∧ req = mkRequest "/" "POST" [("Content-Type", "application/json")]
            (Array_toString (pending s)).
Proof.
  unfold pending. destruct (array_heap s !! _buffer s) as [l|] eqn:Hl.
  - destruct l as [|r l].
    + by rewrite (flush_start_empty _ Hl).
    + rewrite (flush_start_nonempty _ _ Hl) by done. by intros [= <- _ _].
  - unfold flush_start, bind, get__buffer, Array_read. simpl. by rewrite Hl.
Qed.

(** X14.  The request of a flush tells the sink how many notes are in the
    batch and nothing else: the requests of two ticks are equal exactly
    when their batches have the same length, whatever the notes are. *)
Theorem request_counts_only s1 s2 req1 req2 buffer1 buffer2 s1' s2' :
  flush_start s1 = (Normal (Some (req1, buffer1)), s1') →
  flush_start s2 = (Normal (Some (req2, buffer2)), s2') →
  req1 = req2 ↔ length (pending s1) = length (pending s2).
Proof.
  intros [Hne1 ->]%flush_start_sends [Hne2 ->]%flush_start_sends. split.
  - intros [= H]. apply (f_equal String.length) in H.
    rewrite !Array_toString_length in H.
    destruct (pending s1), (pending s2); simpl in *; try done. lia.
  - intros H. f_equal. by apply Array_toString_same_length.
Qed.

Lemma request_counts_only_witness :
  let s2 := run [ (1000, KeyDown (mkDetail 72 10 1000));
                  (9000, KeyUp (mkDetail 72 0 9000)) ]
              (MIDI.constructor sample_ts) in
  let req := mkRequest "/" "POST" [("Content-Type", "application/json")]
               "[object Object]" in
  flush_start sample_state = (Normal (Some (req, 0%nat)), snd (flush_start sample_state))
  ∧ flush_start s2 = (Normal (Some (req, 0%nat)), snd (flush_start s2))
  ∧ (req = req ↔ length (pending sample_state) = length (pending s2)).
Proof.
  intros s2 req.
  assert (flush_start sample_state
          = (Normal (Some (req, 0%nat)), snd (flush_start sample_state))) as H1
    by (vm_compute; reflexivity).
  assert (flush_start s2 = (Normal (Some (req, 0%nat)), snd (flush_start s2))) as H2
    by (vm_compute; reflexivity).
  split; [exact H1|]. split; [exact H2|].
  exact (request_counts_only _ _ _ _ _ _ _ _ H1 H2).
Defined.

(** ** From the bytes to the note *)

Lemma parse_note_on s k v :
  Z.shiftr (byte_value s) 4 = NOTE_ON →
  byte_value v ≠ 0 →
  parse [s; k; v] = Some (mkParsed "_noteon" (Some (byte_value k)) (byte_value v)).
Proof.
  intros Hs Hv. unfold parse, command_of, data_at. simpl. rewrite Hs.
  destruct (Z.eqb_spec (byte_value v) 0) as [|_]; [done|]. simpl.
  pose proof (byte_value_range v). do 2 f_equal. lia.
Qed.

Lemma parse_note_off s k v :
  Z.shiftr (byte_value s) 4 = NOTE_OFF →
  parse [s; k; v] = Some (mkParsed "_noteoff" (Some (byte_value k)) 0).
Proof.
  intros Hs. unfold parse, command_of, data_at. simpl. rewrite Hs.
  by destruct (byte_value v =? 0).
Qed.

(** X15.  From the bytes to the note.  A note-on message for key [k] with
    velocity [v] other than 0, then any reactions other than signals for
    [k], then a note-off message for [k]: the listener accepts both, and
    the [Note] has key [k], velocity [v], as timestamp the clock reading
    [now0] taken when the note-on was parsed, and as frozen duration
    [now1' - now0], where [now1'] is the reading taken when the release
    was handled.  The channels, the release velocity and the reading
    [now1] taken when the note-off was parsed play no part. *)
Theorem messages_press_release
    ts σ s_on s_off k v v_off now0 now0' now1 now1' others :
  reachable ts σ →
  Z.shiftr (byte_value s_on) 4 = NOTE_ON →
  byte_value v ≠ 0 →
  Z.shiftr (byte_value s_off) 4 = NOTE_OFF →
  Forall (not_for (byte_value k)) others →
  ∃ σ1 σ3 n,
    midimessage [s_on; k; v] now0 now0' σ = Some σ1
    ∧ midimessage [s_off; k; v_off] now1 now1' (react_all others σ1) = Some σ3
    ∧ note_heap (st σ3) !! length (note_heap (st σ)) = Some n
    ∧ Note.key n = byte_value k
    ∧ Note.velocity n = byte_value v
    ∧ Note.timestamp n = now0
    ∧ Note._duration n = Some (now1' - now0)
    ∧ notes (st σ3) !! byte_value k = None.
Proof.
  intros Hreach Hon Hv Hoff Hall.
  pose proof (wf_reachable _ _ Hreach) as Hwf.
  unfold midimessage.
  rewrite (parse_note_on s_on k v Hon Hv), (parse_note_off s_off k v_off Hoff).
  cbn [p_key p_type p_velocity String.eqb Ascii.eqb Bool.eqb].
  set (d0 := mkDetail (byte_value k) (byte_value v) now0).
  set (σ1 := react (Sig now0 (KeyDown d0)) σ).
  set (σ2 := react_all others σ1).
  set (r := length (note_heap (st σ))).
  pose proof (wf_react (Sig now0 (KeyDown d0)) σ Hwf) as Hwf1. fold σ1 in Hwf1.
  set (n0 := Note.mk (_TIMESTAMP (st σ) +:+ "." +:+ pretty (_no (st σ)))
               (byte_value k) (byte_value v) now0 None).
  assert (notes (st σ1) !! byte_value k = Some r ∧ note_heap (st σ1) !! r = Some n0)
    as [Hk1 Hr1].
  { unfold σ1, react. cbn [st]. rewrite dispatch_KeyDown, _noteon_eq. simpl. split.
    - by rewrite lookup_insert_eq.
    - rewrite lookup_app_r by (unfold r; lia). unfold r.
      by rewrite Nat.sub_diag. }
  destruct (react_all_other_keys others σ1 (byte_value k) r n0 Hwf1 Hk1 Hr1 Hall)
    as [Hk2 Hr2]. fold σ2 in Hk2, Hr2.
  pose proof (wf_react_all others σ1 Hwf1) as Hwf2. fold σ2 in Hwf2.
  destruct (wf_buffer _ Hwf2) as [l Hl].
  exists σ1, (react (Sig now1' (KeyUp (mkDetail (byte_value k) 0 now1))) σ2).
  exists (Note.set__duration (now1' - now0) n0).
  split; [done|]. split; [done|].
  unfold react. cbn [st]. rewrite dispatch_KeyUp.
  rewrite (_noteoff_active now1' _ _ r n0 l) by done. simpl.
  split; [apply list_lookup_insert_eq; by eapply lookup_lt_Some|].
  repeat (split; [reflexivity|]). apply lookup_delete_eq.
Qed.

Lemma messages_press_release_witness :
  reachable sample_ts (System_init sample_ts)
  ∧ Z.shiftr (byte_value Byte.x93) 4 = NOTE_ON
  ∧ byte_value Byte.x50 ≠ 0
  ∧ Z.shiftr (byte_value Byte.x83) 4 = NOTE_OFF
  ∧ Forall (not_for (byte_value Byte.x3c)) [Tick]
  ∧ ∃ σ1 σ3 n,
      midimessage [Byte.x93; Byte.x3c; Byte.x50] 1000 1000 (System_init sample_ts)
      = Some σ1
      ∧ midimessage [Byte.x83; Byte.x3c; Byte.x40] 1500 1501 (react_all [Tick] σ1)
        = Some σ3
      ∧ note_heap (st σ3) !! 0%nat = Some n
      ∧ Note._duration n = Some (1501 - 1000).
Proof.
  split; [apply rtc_refl|]. split; [reflexivity|].
  split; [by vm_compute|]. split; [reflexivity|].
  split; [by repeat constructor|].
  destruct (messages_press_release sample_ts (System_init sample_ts)
              Byte.x93 Byte.x83 Byte.x3c Byte.x50 Byte.x40 1000 1000 1500 1501 [Tick])
    as (σ1 & σ3 & n & H1 & H2 & H3 & _ & _ & _ & H4 & _).
  - apply rtc_refl.
  - reflexivity.
  - by vm_compute.
  - reflexivity.
  - by repeat constructor.
  - exists σ1, σ3, n. repeat split; assumption.
Defined.

(** ** [initialize] *)

Lemma react_all_page_app es1 es2 p :
  page_react_all (es1 ++ es2) p = page_react_all es2 (page_react_all es1 p).
Proof. revert p. induction es1 as [|e es1 IH]; intros p; simpl; [done | apply IH]. Qed.

(** X16.  If [initialize] is never called while a request for access is
    outstanding, then however often it is called, and whether requests are
    granted or refused, there is at most one timer and at most one request
    or timer at any time; once access is granted there is exactly one
    timer and exactly one listener on each input of the access, and until
    then there is none. *)
Theorem patient_initialize_once ts supported es :
  patient es (Page_init ts supported) →
  let p := page_react_all es (Page_init ts supported) in
  (requests p + intervals p ≤ 1)%nat
  ∧ match _midiAccess p with
    | Some inputs => intervals p = 1%nat ∧ listeners p = inputs
    | None => intervals p = 0%nat ∧ listeners p = []
    end.
Proof.
  assert (∀ p, patient es p →
            (requests p + intervals p ≤ 1)%nat
            ∧ match _midiAccess p with
              | Some inputs => intervals p = 1%nat ∧ listeners p = inputs
              | None => intervals p = 0%nat ∧ listeners p = []
              end →
            (requests (page_react_all es p) + intervals (page_react_all es p) ≤ 1)%nat
            ∧ match _midiAccess (page_react_all es p) with
              | Some inputs =>
                  intervals (page_react_all es p) = 1%nat
                  ∧ listeners (page_react_all es p) = inputs
              | None =>
                  intervals (page_react_all es p) = 0%nat
                  ∧ listeners (page_react_all es p) = []
              end) as Hgen.
  { induction es as [|e es IH]; intros p Hpat Hinv; simpl; [done|].
    destruct Hpat as [Hinit Hpat]. apply IH; [done|].
    destruct p as [m acc sup req ls iv con]. simpl in *.
    destruct Hinv as [Hsum Hacc].
    destruct e as [|inputs|]; simpl.
    - specialize (Hinit eq_refl). subst req. unfold initialize. simpl.
      destruct acc as [inputs|]; simpl; [done|].
      destruct sup; simpl; [|done]. destruct Hacc as [-> ->]. done.
    - destruct req as [|n]; simpl; [done|].
      assert (iv = 0%nat ∧ n = 0%nat) as [-> ->] by lia.
      destruct acc as [inputs'|]; [destruct Hacc; lia|].
      destruct Hacc as [_ ->]. done.
    - destruct req as [|n]; simpl; [done|]. split; [lia | done]. }
  intros Hpat. apply Hgen; [done|]. simpl. split; [lia | done].
Qed.

Lemma patient_initialize_once_witness :
  patient [Initialize; Refuse; Initialize; Grant [0%nat; 1%nat]; Initialize]
    (Page_init sample_ts true)
  ∧ intervals (page_react_all
                 [Initialize; Refuse; Initialize; Grant [0%nat; 1%nat]; Initialize]
                 (Page_init sample_ts true)) = 1%nat
  ∧ listeners (page_react_all
                 [Initialize; Refuse; Initialize; Grant [0%nat; 1%nat]; Initialize]
                 (Page_init sample_ts true)) = [0%nat; 1%nat].
Proof.
  assert (patient [Initialize; Refuse; Initialize; Grant [0%nat; 1%nat]; Initialize]
            (Page_init sample_ts true)) as Hpat.
  { simpl. repeat split; done. }
  split; [exact Hpat|].
  pose proof (patient_initialize_once sample_ts true _ Hpat) as [_ H].
  exact H.
Defined.

(** X17.  When [initialize] is called [k] times before the first request
    is granted, every call requests access, and when all [k] requests are
    granted there are [k] timers, every input of the access has been given
    [k] listeners, and the readiness notification has been sent [k]
    times. *)
Theorem impatient_initialize_multiplies ts k inputs :
  let p := page_react_all (replicate k Initialize ++ replicate k (Grant inputs))
             (Page_init ts true) in
  intervals p = k
  ∧ listeners p = mjoin (replicate k inputs)
  ∧ requests p = 0%nat
  ∧ emitted (st (midi p)) = replicate k (mkEvent "midiaccess" VNull).
Proof.
  assert (∀ j p, _midiAccess p = None → requestMIDIAccess p = true →
            page_react_all (replicate j Initialize) p
            = mkPage (midi p) None true (j + requests p) (listeners p)
                (intervals p) (console p)) as Hinit.
  { induction j as [|j IH]; intros [m acc sup req ls iv con] Hacc Hsup;
      simpl in *; subst.
    - done.
    - unfold initialize. simpl. rewrite IH by done. simpl. f_equal. lia. }
  assert (∀ j m acc ls iv con,
            let p := page_react_all (replicate j (Grant inputs))
                       (mkPage m acc true j ls iv con) in
            intervals p = (iv + j)%nat
            ∧ listeners p = ls ++ mjoin (replicate j inputs)
            ∧ requests p = 0%nat
            ∧ emitted (st (midi p))
              = emitted (st m) ++ replicate j (mkEvent "midiaccess" VNull))
    as Hgrant.
  { induction j as [|j IH]; intros m acc ls iv con; simpl.
    - by rewrite !(right_id_L [] (++)), Nat.add_0_r.
    - unfold access_granted. simpl.
      destruct (IH (mkSystem
                      (snd (dispatchEvent (mkEvent "midiaccess" VNull) (st m)))
                      (inflight m))
                   (Some inputs) (ls ++ inputs) (S iv) con)
        as (H1 & H2 & H3 & H4).
      simpl in *. rewrite H1, H2, H3, H4.
      split; [lia|]. split; [by rewrite (assoc_L (++))|]. split; [done|].
      by rewrite <- (assoc_L (++)). }
  intros p. unfold p. rewrite react_all_page_app, Hinit by done. simpl.
  rewrite Nat.add_0_r.
  destruct (Hgrant k (System_init ts) None [] 0%nat 0%nat) as (H1 & H2 & H3 & H4).
  simpl in *. by rewrite H1, H2, H3, H4.
Qed.


(** ** Sends in flight *)

Lemma sample_in_flight_reachable : reachable sample_ts sample_in_flight.
Proof. apply reachable_react, sample_reachable. Qed.

Lemma react_keeps_inflight_witness :
  reachable sample_ts sample_in_flight
  ∧ 0%nat ∈ inflight sample_in_flight
  ∧ contents (st (react (Sig 2000 (KeyDown (mkDetail 64 90 2000))) sample_in_flight))
      0%nat
    = contents (st sample_in_flight) 0%nat.
Proof.
  assert (0%nat ∈ inflight sample_in_flight) as Hin.
  { vm_compute. apply list_elem_of_here. }
  split; [apply sample_in_flight_reachable|]. split; [exact Hin|].
  apply (react_keeps_inflight sample_ts _ sample_in_flight 0%nat
           sample_in_flight_reachable Hin).
Defined.

Lemma refused_send_remerges_witness :
  reachable sample_ts sample_in_flight
  ∧ inflight sample_in_flight !! 0%nat = Some 0%nat
  ∧ ok 500 = false
  ∧ pending (st (react (Settle 0 (Fulfilled 500)) sample_in_flight))
    = contents (st sample_in_flight) 0%nat ++ pending (st sample_in_flight).
Proof.
  split; [apply sample_in_flight_reachable|]. split; [reflexivity|].
  split; [reflexivity|].
  apply (refused_send_remerges sample_ts sample_in_flight 0%nat 0%nat 500
           sample_in_flight_reachable eq_refl eq_refl).
Defined.

(** ** History only grows *)

Lemma react_history ρ σ :
  log (st σ) `prefix_of` log (st (react ρ σ))
  ∧ emitted (st σ) `prefix_of` emitted (st (react ρ σ)).
Proof.
  destruct ρ as [now [d|d]| |i o].
  - unfold react. cbn [st]. rewrite dispatch_KeyDown, _noteon_eq. simpl. split.
    + by eexists.
    + rewrite <- (assoc_L (++)). by eexists.
  - unfold react. cbn [st]. rewrite dispatch_KeyUp.
    destruct (_noteoff_frame now d (st σ)) as (_ & _ & -> & _).
    split; [done|].
    unfold _noteoff, bind, notes_get.
    destruct (notes (st σ) !! d_key d) as [r|]; simpl; [|done].
    unfold Note_read. destruct (note_heap (st σ) !! r); simpl; [|done].
    unfold Array_push, bind, Array_read. simpl.
    destruct (array_heap (st σ) !! _buffer (st σ)); simpl; [|done].
    rewrite <- (assoc_L (++)). by eexists.
  - by destruct (react_flush_frame Tick σ) as (_ & _ & _ & _ & -> & ->).
  - by destruct (react_flush_frame (Settle i o) σ) as (_ & _ & _ & _ & -> & ->).
Qed.

(** X21.  History only grows: from any state to any later one, the log and
    the sequence of notifications sent are extended at the end and are
    otherwise left as they were; nothing is removed or reordered. *)
Theorem history_append_only σ σ' :
  rtc step σ σ' →
  log (st σ) `prefix_of` log (st σ')
  ∧ emitted (st σ) `prefix_of` emitted (st σ').
Proof.
  induction 1 as [σ|σ1 σ2 σ3 [ρ ->] _ [IH1 IH2]]; [done|].
  destruct (react_history ρ σ1) as [H1 H2].
  split; by etrans.
Qed.

Lemma history_append_only_witness :
  rtc step (System_init sample_ts) sample_system
  ∧ log (st (System_init sample_ts)) `prefix_of` log (st sample_system)
  ∧ emitted (st (System_init sample_ts)) `prefix_of` emitted (st sample_system).
Proof.
  split; [apply sample_reachable|].
  apply (history_append_only (System_init sample_ts) sample_system sample_reachable).
Defined.

(** ** Notes made from messages *)





